(** * Caravan_Scraper: the merge and de-duplication step ([src/merge_dedupe.py])

    A shallow embedding of [_norm_name], [_fuzzy], [_geo_dedup] and [main],
    followed by the properties the specification states about them.

    Conventions of the embedding.
    - A Python [str] is a list of Unicode code points ([str]); a cell of a
      text column is [NaN] or a string ([cell]); a cell of one of the six
      optional columns may also be a number or a boolean ([value]), as
      [read_csv] types a column of digits; float cells (coordinates,
      scores, distances) are rationals, every finite float being one.
    - Names bound by libraries (CPython's Unicode tables, rapidfuzz's
      [token_set_ratio], pandas' sort indexer, geopandas' projection,
      shapely's distance) are Section variables: the source calls them, it
      does not define them.
    - Python exceptions are the [Err] results of an error monad. *)

From Stdlib Require Import String Ascii DecimalString.
From Stdlib Require Import List Bool Arith PeanoNat NArith ZArith QArith Lia.
From Stdlib Require Import Qround Permutation Sorted.
Import ListNotations.

Close Scope Q_scope.
Set Implicit Arguments.

(** ** Text *)

(** A code point, and a Python string as the sequence of its code points. *)
Definition char := N.
Definition str := list char.

(** The code points of an ASCII literal, to write sample strings. *)
Definition lit (s : string) : str :=
  map N_of_ascii (list_ascii_of_string s).

Fixpoint str_eqb (a b : str) : bool :=
  match a, b with
  | [], [] => true
  | x :: a', y :: b' => N.eqb x y && str_eqb a' b'
  | _, _ => false
  end.

(** Python's [<=] on [str]: lexicographic on code points. *)
Fixpoint str_leb (a b : str) : bool :=
  match a, b with
  | [], _ => true
  | _ :: _, [] => false
  | x :: a', y :: b' =>
      if N.ltb x y then true
      else if N.eqb x y then str_leb a' b' else false
  end.

Fixpoint dropwhile {A} (p : A -> bool) (l : list A) : list A :=
  match l with
  | [] => []
  | x :: l' => if p x then dropwhile p l' else l
  end.

(** [sep.join(parts)]. *)
Fixpoint join (sep : str) (parts : list str) : str :=
  match parts with
  | [] => []
  | [p] => p
  | p :: rest => p ++ sep ++ join sep rest
  end.

Definition semicolon : str := [59%N].

(** ** Cells, rows and errors *)

(** A cell of an object column: missing ([NaN]) or text. *)
Inductive cell : Type :=
| NaN
| Str (s : str).

(** A cell of a float column; [None] is NaN. *)
Definition fcell := option Q.

(** Python truthiness: [bool(float('nan'))] is [True], [bool('')] is [False]. *)
Definition truthy (c : cell) : bool :=
  match c with
  | NaN => true
  | Str [] => false
  | Str (_ :: _) => true
  end.

(** [str(v)]: pandas' missing value prints as ["nan"]. *)
Definition py_str (c : cell) : str :=
  match c with
  | NaN => lit "nan"
  | Str s => s
  end.

(** [str(n)] for a Python [int]. *)
Definition decimal (z : Z) : str :=
  lit (NilZero.string_of_int (Z.to_int z)).

(** A cell of a column that [read_csv] may type as numbers or booleans:
    missing, text, [int], [float] or [bool]. *)
Inductive value : Type :=
| VNaN
| VStr (s : str)
| VInt (z : Z)
| VFloat (q : Q)
| VBool (b : bool).

(** [pd.isna(v)]. *)
Definition v_isna (v : value) : bool :=
  match v with VNaN => true | _ => false end.

(** Python truthiness: zero, [False] and [''] are falsy, NaN is truthy. *)
Definition v_truthy (v : value) : bool :=
  match v with
  | VNaN => true
  | VStr [] => false
  | VStr (_ :: _) => true
  | VInt z => negb (Z.eqb z 0)
  | VFloat q => negb (Qeq_bool q 0)
  | VBool b => b
  end.

(** [v or ""]. *)
Definition or_empty (v : value) : value :=
  if v_truthy v then v else VStr [].

(** The columns of [prefer_cols], in the order of the source. *)
Inductive prefer_col : Type :=
| operator_brand
| operator_company
| operator_source_url
| website
| phone
| email.

Definition prefer_cols : list prefer_col :=
  [operator_brand; operator_company; operator_source_url; website; phone; email].

(** One row of the table. [index] is the row label ([Series.name]). *)
Record Row : Type := mkRow {
  index : nat;
  name : cell;
  latitude : fcell;
  longitude : fcell;
  source_primary : cell;
  brand_cell : value;
  company_cell : value;
  source_url_cell : value;
  website_cell : value;
  phone_cell : value;
  email_cell : value;
  source_secondary : cell
}.

(** [row.get(col)] for a column of [prefer_cols]. *)
Definition get (col : prefer_col) (r : Row) : value :=
  match col with
  | operator_brand => brand_cell r
  | operator_company => company_cell r
  | operator_source_url => source_url_cell r
  | website => website_cell r
  | phone => phone_cell r
  | email => email_cell r
  end.

(** [row[col] = val]. *)
Definition set (col : prefer_col) (v : value) (r : Row) : Row :=
  match r with
  | mkRow i n la lo sp b c u w p e ss =>
      match col with
      | operator_brand => mkRow i n la lo sp v c u w p e ss
      | operator_company => mkRow i n la lo sp b v u w p e ss
      | operator_source_url => mkRow i n la lo sp b c v w p e ss
      | website => mkRow i n la lo sp b c u v p e ss
      | phone => mkRow i n la lo sp b c u w v e ss
      | email => mkRow i n la lo sp b c u w p v ss
      end
  end.

Definition set_source_secondary (v : cell) (r : Row) : Row :=
  match r with
  | mkRow i n la lo sp b c u w p e _ => mkRow i n la lo sp b c u w p e v
  end.

Definition set_name (v : cell) (r : Row) : Row :=
  match r with
  | mkRow i _ la lo sp b c u w p e ss => mkRow i v la lo sp b c u w p e ss
  end.

Definition set_index (k : nat) (r : Row) : Row :=
  match r with
  | mkRow _ n la lo sp b c u w p e ss => mkRow k n la lo sp b c u w p e ss
  end.

(** The exceptions the modelled code can raise. *)
Inductive error : Type :=
| KeyError
| IndexError
| IntCastingNaNError.

Inductive result (A : Type) : Type :=
| Ok (a : A)
| Err (e : error).

Arguments Ok {A} a.
Arguments Err {A} e.

Definition bind {A B} (m : result A) (k : A -> result B) : result B :=
  match m with
  | Ok a => k a
  | Err e => Err e
  end.

Notation "x <- m ;; k" := (bind m (fun x => k))
  (at level 61, m at next level, right associativity).

Fixpoint mapM {A B} (f : A -> result B) (l : list A) : result (list B) :=
  match l with
  | [] => Ok []
  | a :: l' =>
      b <- f a ;;
      bs <- mapM f l' ;;
      Ok (b :: bs)
  end.

(** The rows of a frame that was built, none when building it raised. *)
Definition rows_of {A} (m : result (list A)) : list A :=
  match m with
  | Ok rows => rows
  | Err _ => []
  end.

(** [seq[0]] / [.iloc[0]]. *)
Definition iloc0 {A} (l : list A) : result A :=
  match l with
  | [] => Err IndexError
  | a :: _ => Ok a
  end.

(** ** Ordering of source tags under [sort_values(..., na_position="last")] *)

(** [tag_leb a b]: [a] may stand before [b] in the sorted frame. Present
    tags are ordered as Python strings; a missing tag stands after every
    present one. *)
Definition tag_leb (a b : cell) : bool :=
  match a, b with
  | Str x, Str y => str_leb x y
  | Str _, NaN => true
  | NaN, NaN => true
  | NaN, Str _ => false
  end.

Definition key_at (keys : list cell) (i : nat) : cell := nth i keys NaN.

(** What the model asks of the indexer pandas computes for [sort_values]:
    it lists every position once, in ascending key order. The default
    [kind="quicksort"] is not stable, so nothing is asked about ties. *)
Definition indexer_ok (indexer : list cell -> list nat) : Prop :=
  forall keys,
    Permutation (indexer keys) (seq 0 (length keys)) /\
    StronglySorted (fun i j => tag_leb (key_at keys i) (key_at keys j) = true)
                   (indexer keys).

(** ** Sample instances of the library functions

    Used to run the model on concrete tables. The theorems below hold for
    every instance; these are the ones the examples are evaluated with. *)

Definition between (lo hi c : N) : bool := (N.leb lo c) && (N.leb c hi).

(** CPython's [str.isalnum], [str.isspace] and [str.lower] on the code
    points the examples use: U+0000..U+007F, U+0130 (capital I with dot
    above, which lower-cases to the two code points U+0069 U+0307) and
    U+0307 (combining dot above, a mark: neither alphanumeric nor space). *)
Definition ucd_isalnum (c : char) : bool :=
  between 48 57 c || between 65 90 c || between 97 122 c || N.eqb c 304.

Definition ucd_isspace (c : char) : bool :=
  between 9 13 c || between 28 32 c.

Definition ucd_lower (c : char) : str :=
  if between 65 90 c then [(c + 32)%N]
  else if N.eqb c 304 then [105%N; 775%N]
  else [c].

(** A scorer standing in for rapidfuzz: 0 when either string is empty (as
    rapidfuzz does), 100 for equal strings, 0 otherwise. *)
Definition exact_ratio (a b : str) : Q :=
  match a, b with
  | [], _ => 0%Q
  | _, [] => 0%Q
  | _, _ => if str_eqb a b then 100%Q else 0%Q
  end.

(** A stable insertion sort of the positions by key. *)
Fixpoint insert_idx (keys : list cell) (i : nat) (l : list nat) : list nat :=
  match l with
  | [] => [i]
  | j :: l' =>
      if tag_leb (key_at keys i) (key_at keys j) then i :: l
      else j :: insert_idx keys i l'
  end.

Definition stable_indexer (keys : list cell) : list nat :=
  fold_right (insert_idx keys) [] (seq 0 (length keys)).

(** A stand-in for rapidfuzz on strings of a single token: the normalized
    indel similarity (twice the longest common subsequence over the summed
    lengths, times 100), and 0 when either string is empty. *)
Fixpoint lcs (a : str) : str -> nat :=
  fix lcs_a (b : str) : nat :=
    match a, b with
    | x :: a', y :: b' =>
        if N.eqb x y then S (lcs a' b')
        else Nat.max (lcs a' b) (lcs_a b')
    | _, _ => 0
    end.

Definition indel_ratio (a b : str) : Q :=
  match a, b with
  | [], _ => 0%Q
  | _, [] => 0%Q
  | _, _ =>
      (Z.of_nat (200 * lcs a b) # Pos.of_nat (length a + length b))%Q
  end.

(** A stand-in for the projection to EPSG:3857: a flat integer grid, the
    degrees read as metres. A point is undefined where the projection is
    not finite: when a coordinate is missing, or the latitude is not
    strictly between -90 and 90. *)
Definition grid_point : Type := option (Z * Z).

Definition grid_points_from_xy (x y : fcell) : grid_point :=
  match x, y with
  | Some lon, Some lat =>
      if Qle_bool 90 lat || Qle_bool lat (-90) then None
      else Some (Qfloor lon, Qfloor lat)
  | _, _ => None
  end.

(** On integer points and against an integer radius, comparing the integer
    square root decides [distance <= radius] as the real distance does. *)
Definition grid_distance (p q : grid_point) : Q :=
  match p, q with
  | Some p, Some q =>
      let dx := (fst p - fst q)%Z in
      let dy := (snd p - snd q)%Z in
      inject_Z (Z.sqrt (dx * dx + dy * dy))
  | _, _ => 0%Q
  end.

(** [round(-1)]: to the nearest multiple of ten, halves to the even one. *)
Definition round_tens (z : Z) : Z :=
  let q := (z / 10)%Z in
  let r := (z mod 10)%Z in
  if (r <? 5)%Z then (10 * q)%Z
  else if (5 <? r)%Z then (10 * (q + 1))%Z
  else if Z.even q then (10 * q)%Z else (10 * (q + 1))%Z.

(** The key of line 19; none where [astype(int)] meets a value that is not
    finite. *)
Definition grid_cluster_key (p : grid_point) : option str :=
  match p with
  | Some p =>
      Some (decimal (round_tens (fst p)) ++ lit ":"
            ++ decimal (round_tens (snd p)))
  | None => None
  end.

(** [repr] of a float whose value is a whole number below 1e16, which is
    all the samples hold. *)
Definition whole_float_repr (q : Q) : str :=
  decimal (Qfloor q) ++ lit ".0".

Definition all_columns (_ : prefer_col) : bool := true.

(** Sample rows: label, name, longitude, latitude, source tag, phone. *)
Definition sample_row (k : nat) (nm : cell) (lon lat : Z) (src : cell)
           (ph : value) : Row :=
  mkRow k nm (Some (inject_Z lat)) (Some (inject_Z lon)) src
        VNaN VNaN VNaN VNaN ph VNaN NaN.

(** A row whose latitude is missing, and one whose latitude is no
    latitude. *)
Definition row_without_latitude : Row :=
  mkRow 0 (Str (lit "Sunny Caravan Park")) None (Some (inject_Z 153))
        (Str (lit "osm")) VNaN VNaN VNaN VNaN VNaN VNaN NaN.

Definition row_with_latitude_200 : Row :=
  sample_row 0 (Str (lit "Sunny Caravan Park")) 153 200 (Str (lit "osm")) VNaN.

(** Three rows at one place: two spellings of one name, and another
    name. *)
Definition sunny_table : list Row :=
  [ sample_row 0 (Str (lit "Sunny Caravan Park")) 153 (-27)
               (Str (lit "osm")) VNaN;
    sample_row 1 (Str (lit "sunny caravan park!")) 153 (-27)
               (Str (lit "brand")) (VStr (lit "0400 111 222"));
    sample_row 2 (Str (lit "Blue Lake Resort")) 153 (-27)
               (Str (lit "osm")) VNaN ].

(** Two rows at one place whose names hold no letter, digit or space. *)
Definition punctuation_table : list Row :=
  [ sample_row 0 (Str (lit "!!!")) 153 (-27) (Str (lit "osm")) VNaN;
    sample_row 1 (Str (lit "???")) 153 (-27) (Str (lit "brand")) VNaN ].

Definition symbol_frames : list (list Row) :=
  [ [ sample_row 0 (Str (lit "***")) 153 (-27) (Str (lit "osm")) VNaN ];
    [ sample_row 0 (Str (lit "(-)")) 153 (-27) (Str (lit "brand")) VNaN ] ].

(** Two rows of one name at one place; the second has no source tag. *)
Definition untagged_member_table : list Row :=
  [ sample_row 0 (Str (lit "Sunny Park")) 153 (-27) (Str (lit "osm")) VNaN;
    sample_row 1 (Str (lit "Sunny Park")) 153 (-27) NaN VNaN ].

(** Three rows of one name at one place, tagged ["osm"], ["brand"] and
    ["osm"]. *)
Definition repeated_tag_table : list Row :=
  [ sample_row 0 (Str (lit "Sunny Park")) 153 (-27) (Str (lit "osm")) VNaN;
    sample_row 1 (Str (lit "Sunny Park")) 153 (-27) (Str (lit "brand")) VNaN;
    sample_row 2 (Str (lit "Sunny Park")) 153 (-27) (Str (lit "osm")) VNaN ].

(** Two rows of one name at one place; the first, which has the lesser
    tag, holds a single space as its phone. *)
Definition blank_phone_table : list Row :=
  [ sample_row 0 (Str (lit "Sunny Park")) 153 (-27)
               (Str (lit "brand")) (VStr (lit " "));
    sample_row 1 (Str (lit "Sunny Park")) 153 (-27)
               (Str (lit "osm")) (VStr (lit "0400 111 222")) ].

(** Two rows of one name at one place; the second, which has the lesser
    tag, holds the number 0 as its phone. *)
Definition zero_phone_table : list Row :=
  [ sample_row 0 (Str (lit "Sunny Park")) 153 (-27)
               (Str (lit "osm")) (VStr (lit "0400 111 222"));
    sample_row 1 (Str (lit "Sunny Park")) 153 (-27)
               (Str (lit "brand")) (VInt 0) ].

(** The specification's scenarios B, D and E: one name in two far places;
    a row without latitude beside a complete one; a base without phone
    beside a member with one. *)
Definition far_apart_frames : list (list Row) :=
  [ [ sample_row 0 (Str (lit "Sunny Park")) 153 (-27) (Str (lit "osm")) VNaN;
      sample_row 0 (Str (lit "Sunny Park")) (-153) (-27)
                 (Str (lit "brand")) VNaN ] ].

Definition partly_located_frames : list (list Row) :=
  [ [ row_without_latitude ];
    [ sample_row 0 (Str (lit "Blue Lake Resort")) 153 (-27)
                 (Str (lit "brand")) VNaN ] ].

Definition phone_backfill_frames : list (list Row) :=
  [ [ sample_row 0 (Str (lit "Sunny Park")) 153 (-27)
                 (Str (lit "brand")) VNaN ];
    [ sample_row 0 (Str (lit "Sunny Park")) 153 (-27)
                 (Str (lit "osm")) (VStr (lit "0400 111 222")) ] ].

(** Two rows at one place with different names. *)
Definition unrelated_table : list Row :=
  [ sample_row 0 (Str (lit "Sunny Caravan Park")) 153 (-27)
               (Str (lit "osm")) VNaN;
    sample_row 1 (Str (lit "Blue Lake Resort")) 153 (-27)
               (Str (lit "brand")) VNaN ].

(** U+0130, and U+0069 alone. *)
Definition dotted_capital_i : str := [304%N].
Definition small_i : str := [105%N].

(** ** The model of [merge_dedupe.py] *)

Section Model.

(** CPython: [str.isalnum], [str.isspace], [str.lower] per code point. *)
Variables (isalnum isspace : char -> bool) (lower : char -> str).
(** rapidfuzz: [fuzz.token_set_ratio]. *)
Variable token_set_ratio : str -> str -> Q.
(** pandas: the positions in the order [sort_values] puts them. *)
Variable sort_indexer : list cell -> list nat.
(** geopandas/shapely: points in EPSG:3857 made from longitude and
    latitude, and their planar distance. *)
Variable geometry : Type.
Variable points_from_xy : fcell -> fcell -> geometry.
Variable distance : geometry -> geometry -> Q.
(** numpy/pandas: the text [round(x,-1):round(y,-1)] of a point; none
    where a coordinate of the point is not finite (missing, or sent to
    infinity by the projection), where [astype(int)] raises. *)
Variable cluster_key : geometry -> option str.
(** [col in cand.columns] for the optional columns of the input table. *)
Variable columns : prefer_col -> bool.
(** CPython: [repr] of a float. *)
Variable float_repr : Q -> str.

(** [str(v)] for a cell of an optional column. *)
Definition v_str (v : value) : str :=
  match v with
  | VNaN => lit "nan"
  | VStr s => s
  | VInt z => decimal z
  | VFloat q => float_repr q
  | VBool true => lit "True"
  | VBool false => lit "False"
  end.

(** [s.strip()]. *)
Definition strip (s : str) : str :=
  rev (dropwhile isspace (rev (dropwhile isspace s))).

(** Lines 7-10. *)
Definition _norm_name (s : cell) : str :=
  match s with
  | NaN => []
  | Str s =>
      strip (flat_map lower (filter (fun ch => isalnum ch || isspace ch) s))
  end.

(** Lines 12-13. *)
Definition _fuzzy (a b : cell) : Q :=
  token_set_ratio (_norm_name a) (_norm_name b).

(** A row of [gdf]: the input row with its [geometry] and [cluster]. *)
Record GRow : Type := mkGRow {
  row : Row;
  geom : geometry;
  cluster : str
}.

Definition label (g : GRow) : nat := index (row g).

(** [k in used]. *)
Definition mem (k : nat) (used : list nat) : bool :=
  existsb (Nat.eqb k) used.

(** The condition of line 34. *)
Definition name_match (r r2 : Row) : bool :=
  Qle_bool 80 (_fuzzy (name r) (name r2))
  || (truthy (name r) && truthy (name r2)
      && str_eqb (_norm_name (name r)) (_norm_name (name r2))).

(** Lines 30-35: whether the inner loop appends [j] to the block of [i]. *)
Definition appended (radius_m : Q) (used : list nat) (i j : GRow) : bool :=
  if Nat.eqb (label j) (label i) || mem (label j) used then false
  else if Qle_bool (distance (geom i) (geom j)) radius_m
       then name_match (row i) (row j)
       else false.

(** Lines 28-35: the block seeded by [i]. *)
Definition build_block (radius_m : Q) (cand : list GRow) (used : list nat)
           (i : GRow) : list nat :=
  label i :: map label (filter (appended radius_m used i) cand).

(** [cand.loc[k]] on a frame whose labels are distinct. *)
Fixpoint loc (cand : list GRow) (k : nat) : result GRow :=
  match cand with
  | [] => Err KeyError
  | g :: cand' => if Nat.eqb (label g) k then Ok g else loc cand' k
  end.

(** [frame.sort_values(by=["source_primary"], na_position="last")]. *)
Definition sort_values (rows : list GRow) : result (list GRow) :=
  mapM (fun p => match nth_error rows p with
                 | Some g => Ok g
                 | None => Err IndexError
                 end)
       (sort_indexer (map (fun g => source_primary (row g)) rows)).

(** Line 37 up to [.iloc[0]]: the base row of a block. *)
Definition select_base (cand : list GRow) (block : list nat) : result GRow :=
  rows <- mapM (loc cand) block ;;
  sorted <- sort_values rows ;;
  iloc0 sorted.

Definition nonempty (s : str) : bool :=
  match s with [] => false | _ :: _ => true end.

(** Line 44: [pd.isna(v) or str(v or "").strip() == ""]. *)
Definition lacking (v : value) : bool :=
  v_isna v || negb (nonempty (strip (v_str (or_empty v)))).

(** Line 47: [pd.notna(val) and str(val).strip()]. *)
Definition usable (val : value) : bool :=
  negb (v_isna val) && nonempty (strip (v_str val)).

(** Lines 45-49: the first usable value of [col] along the block. *)
Fixpoint first_usable (cand : list GRow) (col : prefer_col)
         (block : list nat) : result (option value) :=
  match block with
  | [] => Ok None
  | k :: block' =>
      g <- loc cand k ;;
      let val := get col (row g) in
      if usable val then Ok (Some val) else first_usable cand col block'
  end.

(** Lines 44-49 for one column. *)
Definition backfill (cand : list GRow) (block : list nat) (merged : Row)
           (col : prefer_col) : result Row :=
  if columns col && lacking (get col merged) then
    found <- first_usable cand col block ;;
    match found with
    | Some val => Ok (set col val merged)
    | None => Ok merged
    end
  else Ok merged.

(** Lines 43-49: the loop over [prefer_cols]. *)
Fixpoint backfill_all (cand : list GRow) (block : list nat) (merged : Row)
         (cols : list prefer_col) : result Row :=
  match cols with
  | [] => Ok merged
  | col :: cols' =>
      merged' <- backfill cand block merged col ;;
      backfill_all cand block merged' cols'
  end.

(** [str(r.get("source_primary"))]. *)
Definition tag_text (g : GRow) : str := py_str (source_primary (row g)).

(** Line 50. *)
Definition provenance (cand : list GRow) (block : list nat) (merged : Row)
  : result cell :=
  tags <- mapM (fun k => g <- loc cand k ;; Ok (tag_text g))
               (filter (fun k => negb (Nat.eqb k (index merged))) block) ;;
  Ok (Str (join semicolon tags)).

(** Lines 37-51: the merged row of a block. Its [geometry] and [cluster]
    are dropped at line 52 and are not carried here. *)
Definition merge_block (cand : list GRow) (block : list nat) : result Row :=
  base <- select_base cand block ;;
  merged <- backfill_all cand block (row base) prefer_cols ;;
  secondary <- provenance cand block merged ;;
  Ok (set_source_secondary secondary merged).

(** Lines 24-36, the blocks alone: the values [block] takes while the
    outer loop runs over [todo] with the marker set [used]. *)
Fixpoint blocks_from (radius_m : Q) (cand todo : list GRow)
         (used : list nat) : list (list nat) :=
  match todo with
  | [] => []
  | i :: todo' =>
      if mem (label i) used then blocks_from radius_m cand todo' used
      else
        let block := build_block radius_m cand used i in
        block :: blocks_from radius_m cand todo' (block ++ used)
  end.

(** Lines 24-51: the outer loop, appending one merged row per block. *)
Fixpoint iterrows (radius_m : Q) (cand todo : list GRow)
         (used : list nat) : result (list Row) :=
  match todo with
  | [] => Ok []
  | i :: todo' =>
      if mem (label i) used then iterrows radius_m cand todo' used
      else
        let block := build_block radius_m cand used i in
        merged <- merge_block cand block ;;
        out_rows <- iterrows radius_m cand todo' (block ++ used) ;;
        Ok (merged :: out_rows)
  end.

(** Lines 23-51 for one group. *)
Definition blocks_of (radius_m : Q) (cand : list GRow) : list (list nat) :=
  blocks_from radius_m cand cand [].

Definition dedup_group (radius_m : Q) (cand : list GRow) : result (list Row) :=
  iterrows radius_m cand cand [].

(** [groupby("cluster")]: the distinct keys in ascending order, each with
    its rows in frame order. *)
Fixpoint insert_key (k : str) (keys : list str) : list str :=
  match keys with
  | [] => [k]
  | k' :: keys' =>
      if str_eqb k k' then keys
      else if str_leb k k' then k :: keys
      else k' :: insert_key k keys'
  end.

Definition group_keys (gdf : list GRow) : list str :=
  fold_right insert_key [] (map cluster gdf).

Definition groupby (gdf : list GRow) : list (list GRow) :=
  map (fun k => filter (fun g => str_eqb (cluster g) k) gdf) (group_keys gdf).

(** [reset_index(drop=True)], and [ignore_index=True] of [pd.concat]. *)
Fixpoint reset_index (start : nat) (rows : list Row) : list Row :=
  match rows with
  | [] => []
  | r :: rows' => set_index start r :: reset_index (S start) rows'
  end.

(** Lines 17-19 for one row, and for the frame: [astype(int)] raises as
    soon as one row has no finite key. *)
Definition to_grow (r : Row) : result GRow :=
  let g := points_from_xy (longitude r) (latitude r) in
  match cluster_key g with
  | Some k => Ok (mkGRow r g k)
  | None => Err IntCastingNaNError
  end.

Definition to_gdf (df : list Row) : result (list GRow) :=
  mapM to_grow df.

(** Lines 15-53. [pd.DataFrame([])] has no column, so dropping
    ["geometry"] and ["cluster"] from it raises [KeyError]. *)
Definition _geo_dedup (radius_m : Q) (df : list Row) : result (list Row) :=
  gdf <- to_gdf df ;;
  groups <- mapM (dedup_group radius_m) (groupby gdf) ;;
  match concat groups with
  | [] => Err KeyError
  | out_rows => Ok (reset_index 0 out_rows)
  end.

Definition default_radius_m : Q := 200%Q.

(** [df["name"].fillna("")]. *)
Definition fillna (c : cell) : cell :=
  match c with NaN => Str [] | Str _ => c end.

(** [dropna(subset=["latitude","longitude"], how="any")]. *)
Definition has_coordinates (r : Row) : bool :=
  match latitude r, longitude r with
  | Some _, Some _ => true
  | _, _ => false
  end.

(** Lines 60-70: from the tables read to the table written. *)
Definition main (frames : list (list Row)) : result (list Row) :=
  match reset_index 0 (concat frames) with
  | [] => Ok []
  | df =>
      let df := map (fun r => set_name (fillna (name r)) r) df in
      let df := filter has_coordinates df in
      _geo_dedup default_radius_m df
  end.

(** *** Predicates used to state the properties *)

(** The characters line 10 keeps. *)
Definition kept (ch : char) : bool := isalnum ch || isspace ch.

(** A character that line 10 keeps and lower-cases to itself. *)
Definition settled (d : char) : bool := kept d && str_eqb (lower d) [d].

(** Every kept character of [s] lower-cases to settled characters. With
    CPython's tables every ASCII string is so; a string holding U+0130
    is not. *)
Definition lower_stable (s : str) : bool :=
  forallb (fun ch => implb (kept ch) (forallb settled (lower ch))) s.

Definition lower_stable_cell (c : cell) : bool :=
  match c with
  | NaN => true
  | Str s => lower_stable s
  end.

(** Two rows with the same coordinates. *)
Definition same_place (o r : Row) : Prop :=
  latitude o = latitude r /\ longitude o = longitude r.

(** The condition of the specification's section 4.5, step 3, in its own
    words, to compare with [appended]: within the radius, and either a
    score of at least 80 or identical non-empty normalized names. *)
Definition spec_step3 (radius_m : Q) (i j : GRow) : bool :=
  Qle_bool (distance (geom i) (geom j)) radius_m
  && (Qle_bool 80 (token_set_ratio (_norm_name (name (row i)))
                                   (_norm_name (name (row j))))
      || (str_eqb (_norm_name (name (row i))) (_norm_name (name (row j)))
          && nonempty (_norm_name (name (row i))))).

(** Lines 45-49 read on the rows of the block: the first usable value of
    [col] among them, in block order. *)
Definition first_usable_value (col : prefer_col) (rows : list GRow)
  : option value :=
  find usable (map (fun g => get col (row g)) rows).

(** Lines 43-49 read as one expression per column: the value [col] has in
    the merged row, from the rows of the block and the base row. *)
Definition backfilled (col : prefer_col) (rows : list GRow) (base : Row)
  : value :=
  if columns col && lacking (get col base) then
    match first_usable_value col rows with
    | Some val => val
    | None => get col base
    end
  else get col base.

(** A value that is present, truthy and prints with a non-whitespace
    character: text that is not blank, a number other than zero, [True]. *)
Definition holds (v : value) : bool :=
  negb (v_isna v) && v_truthy v && nonempty (strip (v_str v)).



(** "Semicolon-joined", said without [join]: each entry after the first
    is preceded by one semicolon. *)
Definition semicolon_joined (entries : list str) : str :=
  match entries with
  | [] => []
  | first :: others =>
      fold_left (fun text entry => text ++ 59%N :: entry) others first
  end.

(** The key line 19 gives a row; none where [astype(int)] raises. *)
Definition cluster_of (r : Row) : option str :=
  cluster_key (points_from_xy (longitude r) (latitude r)).

(** The entry of the provenance field that stands for the member [m]:
    its source tag where it has one, and the text ["nan"] where its tag
    is missing. *)
Definition listed_as (m : GRow) (entry : str) : Prop :=
  match source_primary (row m) with
  | Str tag => entry = tag
  | NaN => entry = lit "nan"
  end.

(** [o] has the name, coordinates and source tag of [r]. *)
Definition based_on (o r : Row) : Prop :=
  name o = name r /\ latitude o = latitude r /\
  longitude o = longitude r /\ source_primary o = source_primary r.

(** The columns no line of the merge writes. *)
Definition same_identity (o r : Row) : Prop :=
  index o = index r /\ name o = name r /\ latitude o = latitude r /\
  longitude o = longitude r /\ source_primary o = source_primary r.

(** ** Properties *)

Unset Implicit Arguments.
Set Default Proof Using "Type".

(** *** Strings *)

Lemma str_eqb_eq (a b : str) : str_eqb a b = true <-> a = b.
Proof.
  revert b; induction a as [|x a IH]; intros [|y b]; simpl;
    try (split; [discriminate | discriminate]); try tauto.
  rewrite andb_true_iff, N.eqb_eq, IH.
  split; [intros [-> ->]; reflexivity | intros H; inversion H; auto].
Qed.

Lemma str_eqb_refl (a : str) : str_eqb a a = true.
Proof. apply str_eqb_eq; reflexivity. Qed.

Lemma dropwhile_suffix {A} (p : A -> bool) (l : list A) :
  exists c, l = c ++ dropwhile p l.
Proof.
  induction l as [|x l [c IH]]; simpl.
  - exists []; reflexivity.
  - destruct (p x).
    + exists (x :: c); simpl; congruence.
    + exists []; reflexivity.
Qed.

Lemma dropwhile_idem {A} (p : A -> bool) (l : list A) :
  dropwhile p (dropwhile p l) = dropwhile p l.
Proof.
  induction l as [|x l IH]; simpl; auto.
  destruct (p x) eqn:E; auto.
  simpl; rewrite E; reflexivity.
Qed.

Lemma dropwhile_fixed_prefix {A} (p : A -> bool) (x y : list A) :
  dropwhile p (x ++ y) = x ++ y -> x <> [] -> dropwhile p x = x.
Proof.
  destruct x as [|a x]; [congruence|]; simpl.
  destruct (p a) eqn:E; auto.
  intros H _; exfalso.
  destruct (dropwhile_suffix p (x ++ y)) as [c Hc].
  assert (Hl : length (x ++ y) = length (c ++ dropwhile p (x ++ y)))
    by (rewrite <- Hc; reflexivity).
  rewrite H in Hl; repeat (rewrite length_app in Hl; simpl in Hl); lia.
Qed.

Lemma Forall_dropwhile {A} (P : A -> Prop) (p : A -> bool) (l : list A) :
  Forall P l -> Forall P (dropwhile p l).
Proof.
  induction 1 as [|x l Hx Hl IH]; simpl; auto.
  destruct (p x); auto.
Qed.

Lemma strip_idem (s : str) : strip (strip s) = strip s.
Proof.
  unfold strip.
  set (a := dropwhile isspace s).
  set (b := dropwhile isspace (rev a)).
  assert (Hb : dropwhile isspace (rev b) = rev b).
  { destruct b as [|x b'] eqn:Eb; [reflexivity|].
    destruct (dropwhile_suffix isspace (rev a)) as [c Hc].
    fold b in Hc; rewrite Eb in Hc.
    apply dropwhile_fixed_prefix with (y := rev c).
    - rewrite <- rev_app_distr, <- Hc, rev_involutive.
      apply dropwhile_idem.
    - intros H; apply (f_equal (@length _)) in H.
      rewrite length_rev in H; discriminate. }
  rewrite Hb, rev_involutive.
  unfold b; rewrite dropwhile_idem; reflexivity.
Qed.

Lemma Forall_strip (P : char -> Prop) (s : str) :
  Forall P s -> Forall P (strip s).
Proof.
  intros H; unfold strip.
  apply Forall_rev, Forall_dropwhile, Forall_rev, Forall_dropwhile, H.
Qed.

Lemma settled_fixed (u : str) :
  Forall (fun d => settled d = true) u ->
  flat_map lower (filter kept u) = u.
Proof.
  induction 1 as [|d u Hd Hu IH]; simpl; auto.
  unfold settled in Hd; apply andb_true_iff in Hd as [Hk Hl].
  rewrite Hk; simpl.
  apply str_eqb_eq in Hl; rewrite Hl, IH; reflexivity.
Qed.

Lemma lower_stable_settled (s : str) :
  lower_stable s = true ->
  Forall (fun d => settled d = true) (flat_map lower (filter kept s)).
Proof.
  unfold lower_stable; induction s as [|ch s IH]; simpl; intros H.
  - constructor.
  - apply andb_true_iff in H as [Hc Hs].
    destruct (kept ch) eqn:E; simpl in *; auto.
    apply Forall_app; split; auto.
    apply Forall_forall; intros d Hd.
    rewrite forallb_forall in Hc; auto.
Qed.

Lemma norm_name_Str (s : str) :
  _norm_name (Str s) = strip (flat_map lower (filter kept s)).
Proof. reflexivity. Qed.

Lemma norm_name_fixed (s : cell) :
  lower_stable_cell s = true ->
  _norm_name (Str (_norm_name s)) = _norm_name s.
Proof.
  destruct s as [|s]; intros H.
  - reflexivity.
  - simpl in H. rewrite !norm_name_Str.
    assert (Hu : Forall (fun d => settled d = true)
                        (strip (flat_map lower (filter kept s))))
      by (apply Forall_strip, lower_stable_settled, H).
    rewrite (settled_fixed _ Hu). apply strip_idem.
Qed.

(** On names that one normalization settles ([lower_stable_cell]), the
    score of the raw names is the score of the normalized names. *)
Lemma fuzzy_of_settled_names (a b : cell) :
  lower_stable_cell a = true ->
  lower_stable_cell b = true ->
  _fuzzy a b = _fuzzy (Str (_norm_name a)) (Str (_norm_name b)).
Proof.
  intros Ha Hb. unfold _fuzzy.
  rewrite (norm_name_fixed _ Ha), (norm_name_fixed _ Hb). reflexivity.
Qed.

(** What line 10 returns for U+0130 and for what it returned, with tables
    that are CPython's at three code points: U+0130 is alphanumeric and
    lower-cases to U+0069 U+0307; U+0069 is a letter that lower-cases to
    itself; U+0307 is a combining mark, neither alphanumeric nor
    whitespace. *)
Lemma norm_name_of_dotted_capital_i :
  isalnum 304%N = true -> lower 304%N = [105%N; 775%N] ->
  isalnum 105%N = true -> isspace 105%N = false -> lower 105%N = [105%N] ->
  isalnum 775%N = false -> isspace 775%N = false ->
  _norm_name (Str dotted_capital_i) = [105%N; 775%N] /\
  _norm_name (Str [105%N; 775%N]) = small_i /\
  _norm_name (Str small_i) = small_i.
Proof.
  intros A1 L1 A2 S2 L2 A3 S3.
  unfold _norm_name, strip, dotted_capital_i, small_i.
  repeat (rewrite ?A1, ?L1, ?A2, ?S2, ?L2, ?A3, ?S3;
          cbn [orb filter flat_map app dropwhile rev]).
  repeat split.
Qed.

(** C9 (defect). With CPython's tables at U+0130, U+0069 and U+0307, the
    name U+0130 normalizes to U+0069 U+0307 and that string normalizes to
    U+0069: normalizing twice is not normalizing once. Line 10 lower-cases
    after it has filtered, and returns the mark U+0307, a character that
    its own filter drops. *)
Theorem norm_name_not_idempotent_on_dotted_capital_i :
  isalnum 304%N = true -> lower 304%N = [105%N; 775%N] ->
  isalnum 105%N = true -> isspace 105%N = false -> lower 105%N = [105%N] ->
  isalnum 775%N = false -> isspace 775%N = false ->
  _norm_name (Str dotted_capital_i) = [105%N; 775%N] /\
  kept 775%N = false /\
  _norm_name (Str (_norm_name (Str dotted_capital_i))) = small_i /\
  _norm_name (Str (_norm_name (Str dotted_capital_i)))
  <> _norm_name (Str dotted_capital_i).
Proof.
  intros A1 L1 A2 S2 L2 A3 S3.
  destruct (norm_name_of_dotted_capital_i A1 L1 A2 S2 L2 A3 S3)
    as [E1 [E2 _]].
  rewrite E1, E2. repeat split.
  - unfold kept. rewrite A3, S3. reflexivity.
  - discriminate.
Qed.

(** C10 (defect). With the same tables and any scorer that tells the pair
    (U+0069 U+0307, U+0069) from the pair (U+0069, U+0069), as rapidfuzz
    does with 66.7 against 100, the names U+0130 and U+0069 score
    otherwise than their normalized forms do: [_fuzzy] normalizes again
    what line 10 did not settle. *)
Theorem fuzzy_changes_after_prenormalization :
  isalnum 304%N = true -> lower 304%N = [105%N; 775%N] ->
  isalnum 105%N = true -> isspace 105%N = false -> lower 105%N = [105%N] ->
  isalnum 775%N = false -> isspace 775%N = false ->
  ~ (token_set_ratio [105%N; 775%N] small_i
     == token_set_ratio small_i small_i)%Q ->
  _fuzzy (Str dotted_capital_i) (Str small_i)
  = token_set_ratio [105%N; 775%N] small_i /\
  _fuzzy (Str (_norm_name (Str dotted_capital_i)))
         (Str (_norm_name (Str small_i)))
  = token_set_ratio small_i small_i /\
  ~ (_fuzzy (Str dotted_capital_i) (Str small_i)
     == _fuzzy (Str (_norm_name (Str dotted_capital_i)))
               (Str (_norm_name (Str small_i))))%Q.
Proof.
  intros A1 L1 A2 S2 L2 A3 S3 Hgap.
  destruct (norm_name_of_dotted_capital_i A1 L1 A2 S2 L2 A3 S3)
    as [E1 [E2 E3]].
  unfold _fuzzy. rewrite E1, E2, !E3. repeat split. exact Hgap.
Qed.

(** *** Labels, lookups and the error monad *)

Lemma mem_In (k : nat) (used : list nat) : mem k used = true <-> In k used.
Proof.
  unfold mem. rewrite existsb_exists. split.
  - intros [x [Hx E]]. apply Nat.eqb_eq in E. subst; auto.
  - intros H. exists k. split; auto. apply Nat.eqb_refl.
Qed.

Lemma mem_not_In (k : nat) (used : list nat) :
  mem k used = false <-> ~ In k used.
Proof.
  rewrite <- mem_In. destruct (mem k used); split; congruence.
Qed.

Lemma loc_Ok (cand : list GRow) (k : nat) (g : GRow) :
  loc cand k = Ok g -> label g = k /\ In g cand.
Proof.
  induction cand as [|h cand IH]; simpl; [discriminate|].
  destruct (Nat.eqb (label h) k) eqn:E.
  - intros H; inversion H; subst. apply Nat.eqb_eq in E. auto.
  - intros H. destruct (IH H); auto.
Qed.

Lemma loc_total (cand : list GRow) (k : nat) :
  In k (map label cand) -> exists g, loc cand k = Ok g.
Proof.
  induction cand as [|h cand IH]; simpl; [tauto|].
  intros H. destruct (Nat.eqb (label h) k) eqn:E.
  - eauto.
  - apply Nat.eqb_neq in E. destruct H; [contradiction|auto].
Qed.

Lemma mapM_Ok {A B} (f : A -> result B) (l : list A) (ys : list B) :
  mapM f l = Ok ys -> Forall2 (fun a b => f a = Ok b) l ys.
Proof.
  revert ys; induction l as [|a l IH]; simpl; intros ys H.
  - inversion H; constructor.
  - destruct (f a) as [b|] eqn:Ea; simpl in H; [|discriminate].
    destruct (mapM f l) as [bs|] eqn:El; simpl in H; [|discriminate].
    inversion H; subst. constructor; auto.
Qed.

Lemma mapM_total {A B} (f : A -> result B) (P : A -> B -> Prop)
      (l : list A) :
  (forall a, In a l -> exists b, f a = Ok b /\ P a b) ->
  exists ys, mapM f l = Ok ys /\ Forall2 P l ys.
Proof.
  induction l as [|a l IH]; simpl; intros H.
  - exists []; split; [reflexivity|constructor].
  - destruct (H a (or_introl eq_refl)) as [b [Eb Pb]].
    destruct IH as [ys [Eys Pys]]; [intros; apply H; auto|].
    exists (b :: ys). rewrite Eb, Eys. split; [reflexivity|constructor; auto].
Qed.

Lemma mapM_app {A B} (f : A -> result B) (l1 l2 : list A) (ys : list B) :
  mapM f (l1 ++ l2) = Ok ys ->
  exists y1 y2, ys = y1 ++ y2 /\ mapM f l1 = Ok y1 /\ mapM f l2 = Ok y2.
Proof.
  revert ys; induction l1 as [|a l1 IH]; simpl; intros ys H.
  - exists [], ys; auto.
  - destruct (f a) as [b|]; simpl in *; [|discriminate].
    destruct (mapM f (l1 ++ l2)) as [bs|] eqn:El; simpl in H; [|discriminate].
    inversion H; subst.
    destruct (IH bs eq_refl) as [y1 [y2 [-> [E1 E2]]]].
    exists (b :: y1), y2. rewrite E1. auto.
Qed.

Lemma mapM_app_Ok {A B} (f : A -> result B) (l1 l2 : list A)
      (y1 y2 : list B) :
  mapM f l1 = Ok y1 -> mapM f l2 = Ok y2 ->
  mapM f (l1 ++ l2) = Ok (y1 ++ y2).
Proof.
  revert y1; induction l1 as [|a l1 IH]; simpl; intros y1 H1 H2.
  - inversion H1; auto.
  - destruct (f a) as [b|]; simpl in *; [|discriminate].
    destruct (mapM f l1) as [bs|]; simpl in *; [|discriminate].
    inversion H1; subst. rewrite (IH bs eq_refl H2). reflexivity.
Qed.

Lemma mapM_then {A B C} (f : A -> result B) (h : B -> C) (l : list A)
      (ys : list B) :
  mapM f l = Ok ys ->
  mapM (fun a => b <- f a ;; Ok (h b)) l = Ok (map h ys).
Proof.
  revert ys; induction l as [|a l IH]; simpl; intros ys H.
  - inversion H; reflexivity.
  - destruct (f a) as [b|]; simpl in *; [|discriminate].
    destruct (mapM f l) as [bs|]; simpl in *; [|discriminate].
    inversion H; subst. rewrite (IH bs eq_refl). reflexivity.
Qed.

Lemma Forall2_In_r {A B} (P : A -> B -> Prop) (l : list A) (ys : list B)
      (y : B) :
  Forall2 P l ys -> In y ys -> exists x, In x l /\ P x y.
Proof.
  induction 1 as [|a b l ys Hab _ IH]; simpl; [tauto|].
  intros [<-|Hy]; [eauto|]. destruct (IH Hy) as [x [Hx Px]]; eauto.
Qed.

Lemma Forall2_In_l {A B} (P : A -> B -> Prop) (l : list A) (ys : list B)
      (x : A) :
  Forall2 P l ys -> In x l -> exists y, In y ys /\ P x y.
Proof.
  induction 1 as [|a b l ys Hab _ IH]; simpl; [tauto|].
  intros [<-|Hx]; [eauto|]. destruct (IH Hx) as [y [Hy Py]]; eauto.
Qed.

(** *** The blocks of a group *)

Lemma blocks_from_cons (radius_m : Q) (cand todo : list GRow) (i : GRow)
      (used : list nat) :
  blocks_from radius_m cand (i :: todo) used =
  if mem (label i) used then blocks_from radius_m cand todo used
  else build_block radius_m cand used i
       :: blocks_from radius_m cand todo
            (build_block radius_m cand used i ++ used).
Proof. reflexivity. Qed.

Lemma filtered_labels_NoDup (keep : GRow -> bool) (cand : list GRow) :
  NoDup (map label cand) -> NoDup (map label (filter keep cand)).
Proof.
  induction cand as [|g cand IH]; simpl; intros H; [constructor|].
  apply NoDup_cons_iff in H as [Hn Hl].
  destruct (keep g); simpl; auto.
  constructor; auto.
  intros Hin. apply Hn.
  apply in_map_iff in Hin as [x [E Hx]].
  apply filter_In in Hx as [Hx _].
  rewrite <- E. apply in_map; exact Hx.
Qed.

Lemma appended_true (radius_m : Q) (used : list nat) (i j : GRow) :
  appended radius_m used i j = true <->
  label j <> label i /\ ~ In (label j) used /\
  Qle_bool (distance (geom i) (geom j)) radius_m = true /\
  name_match (row i) (row j) = true.
Proof.
  clear float_repr.
  unfold appended.
  destruct (Nat.eqb (label j) (label i)) eqn:E; simpl.
  - apply Nat.eqb_eq in E. split; [discriminate|tauto].
  - apply Nat.eqb_neq in E.
    destruct (mem (label j) used) eqn:M.
    + apply mem_In in M. split; [discriminate|tauto].
    + apply mem_not_In in M.
      destruct (Qle_bool (distance (geom i) (geom j)) radius_m).
      * tauto.
      * split; [discriminate|]. intros [_ [_ [H _]]]; discriminate.
Qed.

(** Membership in a block is decided against the seed alone. *)
Lemma build_block_members (radius_m : Q) (cand : list GRow)
      (used : list nat) (i : GRow) (k : nat) :
  In k (build_block radius_m cand used i) <->
  k = label i \/
  exists j, In j cand /\ label j = k /\ appended radius_m used i j = true.
Proof.
  unfold build_block; simpl. rewrite in_map_iff. split.
  - intros [H|[j [E Hj]]]; auto.
    apply filter_In in Hj as [Hj Ha]. right; exists j; auto.
  - intros [H|[j [Hj [E Ha]]]]; auto.
    right; exists j; split; auto. apply filter_In; auto.
Qed.

Lemma build_block_NoDup (radius_m : Q) (cand : list GRow)
      (used : list nat) (i : GRow) :
  NoDup (map label cand) -> NoDup (build_block radius_m cand used i).
Proof.
  intros H. unfold build_block. constructor.
  - rewrite in_map_iff. intros [j [E Hj]].
    apply filter_In in Hj as [_ Ha].
    apply appended_true in Ha as [Hne _]. auto.
  - apply filtered_labels_NoDup, H.
Qed.

Lemma build_block_fresh (radius_m : Q) (cand : list GRow)
      (used : list nat) (i : GRow) (k : nat) :
  In i cand -> ~ In (label i) used ->
  In k (build_block radius_m cand used i) ->
  In k (map label cand) /\ ~ In k used.
Proof.
  intros Hi Hu Hk. apply build_block_members in Hk as [->|[j [Hj [E Ha]]]].
  - split; auto. apply in_map; auto.
  - subst k. apply appended_true in Ha as [_ [Hn _]].
    split; auto. apply in_map; auto.
Qed.

Lemma blocks_from_sound (radius_m : Q) (cand todo : list GRow) :
  incl todo cand ->
  forall used block k,
    In block (blocks_from radius_m cand todo used) -> In k block ->
    In k (map label cand) /\ ~ In k used.
Proof.
  induction todo as [|i todo IH]; intros Hin used block k Hb Hk.
  - contradiction.
  - rewrite blocks_from_cons in Hb. revert Hb.
    assert (Hi : In i cand) by (apply Hin; left; reflexivity).
    assert (Ht : incl todo cand) by (intros x Hx; apply Hin; right; exact Hx).
    destruct (mem (label i) used) eqn:M; intros Hb.
    + eapply IH; eauto.
    + apply mem_not_In in M. destruct Hb as [<-|Hb].
      * eapply build_block_fresh; eauto.
      * destruct (IH Ht _ _ _ Hb Hk) as [H1 H2].
        split; auto. intros Hu. apply H2. apply in_or_app; auto.
Qed.

Lemma blocks_from_NoDup (radius_m : Q) (cand todo : list GRow) :
  NoDup (map label cand) -> incl todo cand ->
  forall used, NoDup (concat (blocks_from radius_m cand todo used)).
Proof.
  intros Hnd. induction todo as [|i todo IH]; intros Hin used.
  - constructor.
  - assert (Ht : incl todo cand) by (intros x Hx; apply Hin; right; exact Hx).
    rewrite blocks_from_cons.
    destruct (mem (label i) used) eqn:M; auto.
    change (NoDup (build_block radius_m cand used i ++
                   concat (blocks_from radius_m cand todo
                             (build_block radius_m cand used i ++ used)))).
    apply NoDup_app.
    + apply build_block_NoDup, Hnd.
    + apply IH, Ht.
    + intros k Hk Hc. apply in_concat in Hc as [block [Hb Hkb]].
      destruct (blocks_from_sound radius_m cand todo Ht _ _ _ Hb Hkb)
        as [_ Hn].
      apply Hn, in_or_app; auto.
Qed.

Lemma blocks_from_complete (radius_m : Q) (cand todo : list GRow) :
  forall used k,
    In k (map label todo) -> ~ In k used ->
    exists block,
      In block (blocks_from radius_m cand todo used) /\ In k block.
Proof.
  clear float_repr.
  induction todo as [|i todo IH]; intros used k Hk Hu.
  - contradiction.
  - rewrite blocks_from_cons. simpl in Hk.
    destruct (mem (label i) used) eqn:M.
    + apply mem_In in M. destruct Hk as [E|Hk]; [subst; contradiction|].
      auto.
    + set (block := build_block radius_m cand used i).
      destruct (in_dec Nat.eq_dec k block) as [Hb|Hb].
      * exists block; simpl; auto.
      * destruct Hk as [E|Hk].
        { exfalso. apply Hb. subst k. left; reflexivity. }
        destruct (IH (block ++ used) k Hk) as [b [H1 H2]].
        { intros H; apply in_app_or in H; tauto. }
        exists b; simpl; auto.
Qed.

Lemma NoDup_concat_disjoint {A} (L : list (list A)) :
  NoDup (concat L) ->
  ForallOrdPairs (fun l1 l2 => forall a, In a l1 -> ~ In a l2) L.
Proof.
  induction L as [|l L IH]; simpl; intros H; constructor.
  - apply Forall_forall. intros l2 Hl2 a Ha Ha2.
    revert H. clear IH. induction l as [|x l IHl]; simpl; intros H.
    + contradiction.
    + inversion H as [|? ? Hn Hr]; subst. destruct Ha as [->|Ha].
      * apply Hn, in_or_app. right. apply in_concat. eauto.
      * auto.
  - apply IH. eapply NoDup_app_remove_l; eauto.
Qed.

(** C8. In a group whose row labels are distinct, the blocks the outer
    loop builds cover exactly the labels of the group, no label stands in
    two blocks or twice in one, and so any two blocks are disjoint. *)
Theorem blocks_partition_the_bucket (radius_m : Q) (cand : list GRow) :
  NoDup (map label cand) ->
  (forall k, In k (map label cand) <->
             exists block, In block (blocks_of radius_m cand) /\ In k block)
  /\ NoDup (concat (blocks_of radius_m cand))
  /\ ForallOrdPairs (fun b1 b2 => forall k, In k b1 -> ~ In k b2)
                    (blocks_of radius_m cand).
Proof.
  intros Hnd. unfold blocks_of.
  assert (Hc : NoDup (concat (blocks_from radius_m cand cand [])))
    by (apply blocks_from_NoDup; [exact Hnd | apply incl_refl]).
  split; [|split; [exact Hc | apply NoDup_concat_disjoint, Hc]].
  intros k; split.
  - intros Hk. apply blocks_from_complete; auto.
  - intros [block [Hb Hk]].
    eapply blocks_from_sound; eauto. apply incl_refl.
Qed.

(** *** The base row of a block *)

Lemma str_leb_refl (a : str) : str_leb a a = true.
Proof.
  induction a as [|x a IH]; simpl; auto.
  rewrite N.ltb_irrefl, N.eqb_refl. exact IH.
Qed.

Lemma tag_leb_refl (c : cell) : tag_leb c c = true.
Proof. destruct c; simpl; auto using str_leb_refl. Qed.

Lemma blocks_from_nonempty (radius_m : Q) (cand todo : list GRow) :
  forall used block,
    In block (blocks_from radius_m cand todo used) -> block <> [].
Proof.
  induction todo as [|i todo IH]; intros used block Hb.
  - contradiction.
  - rewrite blocks_from_cons in Hb.
    destruct (mem (label i) used); [eauto|].
    destruct Hb as [<-|Hb]; [discriminate|eauto].
Qed.

Lemma block_rows (radius_m : Q) (cand : list GRow) (block : list nat) :
  In block (blocks_of radius_m cand) ->
  exists rows, mapM (loc cand) block = Ok rows /\ rows <> [].
Proof.
  intros Hb.
  destruct (mapM_total (loc cand) (fun _ _ => True) block)
    as [rows [E F]].
  - intros k Hk.
    destruct (blocks_from_sound radius_m cand cand (incl_refl _)
                                 _ _ _ Hb Hk) as [Hl _].
    destruct (loc_total _ _ Hl) as [g Hg]. eauto.
  - exists rows; split; auto.
    apply blocks_from_nonempty in Hb.
    destruct block; [congruence|]. inversion F; discriminate.
Qed.

Lemma sort_values_head (rows : list GRow) :
  indexer_ok sort_indexer -> rows <> [] ->
  exists h t sorted,
    sort_indexer (map (fun g => source_primary (row g)) rows) = h :: t /\
    sort_values rows = Ok sorted /\
    Forall2 (fun p g => nth_error rows p = Some g) (h :: t) sorted.
Proof.
  intros Hok Hne.
  set (keys := map (fun g => source_primary (row g)) rows).
  destruct (Hok keys) as [Hperm _].
  assert (Hlen : length keys = length rows) by apply length_map.
  destruct (sort_indexer keys) as [|h t] eqn:E.
  - apply Permutation_nil in Hperm.
    destruct rows; [congruence|]. unfold keys in Hperm. simpl in Hperm.
    discriminate.
  - destruct (@mapM_total _ _
                (fun p => match nth_error rows p with
                          | Some g => Ok g
                          | None => Err IndexError
                          end)
                (fun p g => nth_error rows p = Some g) (h :: t))
      as [sorted [Es Fs]].
    + intros p Hp.
      assert (Hs : In p (seq 0 (length keys)))
        by (eapply Permutation_in; eauto).
      apply in_seq in Hs. rewrite Hlen in Hs.
      destruct (nth_error rows p) as [g|] eqn:En.
      * eauto.
      * apply nth_error_None in En. lia.
    + exists h, t, sorted. unfold sort_values. fold keys. rewrite E. auto.
Qed.

Lemma select_base_least (cand : list GRow) (block : list nat)
      (rows : list GRow) :
  indexer_ok sort_indexer ->
  mapM (loc cand) block = Ok rows -> rows <> [] ->
  exists base,
    select_base cand block = Ok base /\ In base rows /\
    forall m, In m rows ->
              tag_leb (source_primary (row base))
                      (source_primary (row m)) = true.
Proof.
  intros Hok Hrows Hne.
  destruct (sort_values_head rows Hok Hne) as [h [t [sorted [E [Es Fs]]]]].
  inversion Fs as [|? base ? rest Hh Ht]; subst.
  exists base. split; [|split].
  - unfold select_base. rewrite Hrows. simpl. rewrite Es. reflexivity.
  - eapply nth_error_In; eauto.
  - intros m Hm.
    set (keys := map (fun g => source_primary (row g)) rows) in *.
    assert (Hkey : forall p g, nth_error rows p = Some g ->
                               key_at keys p = source_primary (row g)).
    { intros p g Hp. unfold key_at, keys.
      apply nth_error_nth.
      apply (map_nth_error (fun g => source_primary (row g))), Hp. }
    destruct (Hok keys) as [Hperm Hsorted]. rewrite E in Hperm, Hsorted.
    apply In_nth_error in Hm as [j Hj].
    assert (Hjn : j < length keys).
    { unfold keys. rewrite length_map. apply nth_error_Some. congruence. }
    assert (Hin : In j (h :: t)).
    { eapply Permutation_in; [apply Permutation_sym, Hperm|].
      apply in_seq. lia. }
    destruct Hin as [<-|Hin].
    + assert (m = base) by congruence. subst. apply tag_leb_refl.
    + apply StronglySorted_inv in Hsorted as [_ Hall].
      rewrite Forall_forall in Hall. specialize (Hall j Hin).
      rewrite (Hkey _ _ Hh), (Hkey _ _ Hj) in Hall. exact Hall.
Qed.



(** *** Backfilling *)

Lemma col_eq_dec (a b : prefer_col) : {a = b} + {a <> b}.
Proof. decide equality. Qed.

Lemma get_set_same (col : prefer_col) (v : value) (r : Row) :
  get col (set col v r) = v.
Proof. destruct r, col; reflexivity. Qed.

Lemma get_set_other (c col : prefer_col) (v : value) (r : Row) :
  c <> col -> get c (set col v r) = get c r.
Proof. destruct r, c, col; intros H; try reflexivity; congruence. Qed.

Lemma set_get (col : prefer_col) (r : Row) : set col (get col r) r = r.
Proof. destruct r, col; reflexivity. Qed.

Lemma index_set (col : prefer_col) (v : value) (r : Row) :
  index (set col v r) = index r.
Proof. destruct r, col; reflexivity. Qed.

Lemma strip_nil : strip [] = [].
Proof. reflexivity. Qed.

(** Line 44 counts a value as missing exactly when it does not hold: it
    is NaN, or falsy (the empty string, zero, [False]), or prints as
    whitespace only. *)
Lemma lacking_holds (v : value) : lacking v = negb (holds v).
Proof.
  unfold lacking, holds, or_empty.
  destruct (v_isna v); [reflexivity|].
  destruct (v_truthy v); [reflexivity|].
  cbn [v_str]. rewrite strip_nil. reflexivity.
Qed.

Lemma holds_text (s : str) : holds (VStr s) = nonempty (strip s).
Proof. destruct s; [rewrite strip_nil|]; reflexivity. Qed.

Lemma lacking_zero : lacking (VInt 0) = true.
Proof. reflexivity. Qed.

Lemma first_usable_total (cand : list GRow) (col : prefer_col)
      (block : list nat) (rows : list GRow) :
  mapM (loc cand) block = Ok rows ->
  exists found, first_usable cand col block = Ok found.
Proof.
  revert rows; induction block as [|k block IH]; simpl; intros rows H.
  - eauto.
  - destruct (loc cand k) as [g|]; simpl in *; [|discriminate].
    destruct (mapM (loc cand) block) as [rs|]; simpl in *; [|discriminate].
    destruct (usable (get col (row g))); eauto.
Qed.

Lemma backfill_spec (cand : list GRow) (block : list nat)
      (rows : list GRow) (merged : Row) (col : prefer_col) :
  mapM (loc cand) block = Ok rows ->
  exists merged',
    backfill cand block merged col = Ok merged' /\
    index merged' = index merged /\
    forall c, lacking (get c merged) = false ->
              get c merged' = get c merged.
Proof.
  intros Hrows. unfold backfill.
  destruct (columns col && lacking (get col merged)) eqn:E.
  - destruct (first_usable_total cand col block rows Hrows) as [found Hf].
    rewrite Hf; simpl. destruct found as [val|].
    + exists (set col val merged). split; [reflexivity|].
      split; [apply index_set|].
      intros c Hc. apply get_set_other. intros ->.
      apply andb_true_iff in E as [_ E]. congruence.
    + exists merged; auto.
  - exists merged; auto.
Qed.

Lemma backfill_all_spec (cand : list GRow) (block : list nat)
      (rows : list GRow) (cols : list prefer_col) :
  mapM (loc cand) block = Ok rows ->
  forall merged,
  exists merged',
    backfill_all cand block merged cols = Ok merged' /\
    index merged' = index merged /\
    forall c, lacking (get c merged) = false ->
              get c merged' = get c merged.
Proof.
  intros Hrows. induction cols as [|col cols IH]; simpl; intros merged.
  - exists merged; auto.
  - destruct (backfill_spec cand block rows merged col Hrows)
      as [m1 [E1 [I1 K1]]].
    destruct (IH m1) as [m2 [E2 [I2 K2]]].
    exists m2. rewrite E1; simpl. split; [exact E2|].
    split; [congruence|].
    intros c Hc. rewrite K2; [auto|]. rewrite K1; auto.
Qed.

(** *** Provenance *)

Lemma filter_all {A} (p : A -> bool) (l : list A) :
  (forall x, In x l -> p x = true) -> filter p l = l.
Proof.
  induction l as [|a l IH]; simpl; intros H; auto.
  rewrite (H a (or_introl eq_refl)), IH; auto.
Qed.

Lemma provenance_total (cand : list GRow) (block : list nat)
      (rows : list GRow) (merged : Row) :
  mapM (loc cand) block = Ok rows ->
  exists secondary, provenance cand block merged = Ok secondary.
Proof.
  intros Hrows. unfold provenance.
  destruct (@mapM_total _ _
              (fun k => g <- loc cand k ;; Ok (tag_text g))
              (fun _ _ => True)
              (filter (fun k => negb (Nat.eqb k (index merged))) block))
    as [tags [E _]].
  - intros k Hk. apply filter_In in Hk as [Hk _].
    apply mapM_Ok in Hrows.
    destruct (Forall2_In_l _ _ _ _ Hrows Hk) as [g [_ Hg]]. rewrite Hg; simpl.
    eauto.
  - rewrite E; simpl; eauto.
Qed.

Lemma provenance_value (cand : list GRow) (block : list nat)
      (rows : list GRow) (base : GRow) (merged : Row) :
  NoDup block ->
  mapM (loc cand) block = Ok rows ->
  In base rows ->
  index merged = label base ->
  exists r1 r2,
    rows = r1 ++ base :: r2 /\
    provenance cand block merged =
    Ok (Str (join semicolon (map tag_text (r1 ++ r2)))).
Proof.
  intros Hnd Hrows Hin Hidx.
  destruct (Forall2_In_r _ _ _ _ (mapM_Ok _ _ _ Hrows) Hin) as [k [Hk Hloc]].
  assert (Hlab : label base = k) by (apply loc_Ok in Hloc; tauto).
  apply in_split in Hk as [b1 [b2 ->]].
  apply NoDup_remove_2 in Hnd.
  destruct (mapM_app _ _ _ _ Hrows) as [r1 [y2 [-> [E1 E2]]]].
  simpl in E2. rewrite Hloc in E2; simpl in E2.
  destruct (mapM (loc cand) b2) as [r2|] eqn:E3; simpl in E2; [|discriminate].
  inversion E2; subst y2.
  exists r1, r2. split; [reflexivity|].
  unfold provenance. rewrite Hidx, Hlab.
  rewrite filter_app; simpl. rewrite Nat.eqb_refl; simpl.
  rewrite !filter_all.
  - rewrite (mapM_app_Ok _ _ _ _ _ (mapM_then _ tag_text _ _ E1)
                                    (mapM_then _ tag_text _ _ E3)).
    simpl. rewrite map_app. reflexivity.
  - intros x Hx. apply negb_true_iff, Nat.eqb_neq. intros ->.
    apply Hnd, in_or_app; auto.
  - intros x Hx. apply negb_true_iff, Nat.eqb_neq. intros ->.
    apply Hnd, in_or_app; auto.
Qed.

(** *** Merged rows *)

Lemma get_set_source_secondary (c : prefer_col) (v : cell) (r : Row) :
  get c (set_source_secondary v r) = get c r.
Proof. destruct r, c; reflexivity. Qed.

Lemma source_secondary_set (v : cell) (r : Row) :
  source_secondary (set_source_secondary v r) = v.
Proof. destruct r; reflexivity. Qed.

Lemma iterrows_mapM (radius_m : Q) (cand todo : list GRow) :
  forall used,
    iterrows radius_m cand todo used =
    mapM (merge_block cand) (blocks_from radius_m cand todo used).
Proof.
  induction todo as [|i todo IH]; intros used.
  - reflexivity.
  - rewrite blocks_from_cons. cbn [iterrows].
    destruct (mem (label i) used); [apply IH|].
    cbn [mapM]. rewrite IH. reflexivity.
Qed.

Lemma blocks_from_each_NoDup (radius_m : Q) (cand todo : list GRow) :
  NoDup (map label cand) ->
  forall used block,
    In block (blocks_from radius_m cand todo used) -> NoDup block.
Proof.
  intros Hnd. induction todo as [|i todo IH]; intros used block Hb.
  - contradiction.
  - rewrite blocks_from_cons in Hb.
    destruct (mem (label i) used); [eauto|].
    destruct Hb as [<-|Hb]; [apply build_block_NoDup, Hnd|eauto].
Qed.

Lemma merge_block_spec (cand : list GRow) (block : list nat)
      (rows : list GRow) :
  indexer_ok sort_indexer ->
  mapM (loc cand) block = Ok rows -> rows <> [] ->
  exists base filled secondary,
    select_base cand block = Ok base /\ In base rows /\
    index filled = label base /\
    (forall c, lacking (get c (row base)) = false ->
               get c filled = get c (row base)) /\
    provenance cand block filled = Ok secondary /\
    merge_block cand block = Ok (set_source_secondary secondary filled).
Proof.
  intros Hok Hrows Hne.
  destruct (select_base_least _ _ _ Hok Hrows Hne) as [base [Hs [Hin _]]].
  destruct (backfill_all_spec cand block rows prefer_cols Hrows (row base))
    as [filled [Hf [Hi Hk]]].
  destruct (provenance_total cand block rows filled Hrows) as [sec Hp].
  exists base, filled, sec. repeat split; auto.
  unfold merge_block. rewrite Hs; cbn [bind]. rewrite Hf; cbn [bind].
  rewrite Hp; reflexivity.
Qed.

Lemma join_semicolon_cons (rest : list str) :
  forall p,
    join semicolon (p :: rest)
    = p ++ flat_map (fun entry => 59%N :: entry) rest.
Proof.
  induction rest as [|q rest IH]; intros p.
  - simpl. rewrite app_nil_r. reflexivity.
  - change (join semicolon (p :: q :: rest))
      with (p ++ semicolon ++ join semicolon (q :: rest)).
    rewrite IH. reflexivity.
Qed.

Lemma join_is_semicolon_joined (entries : list str) :
  join semicolon entries = semicolon_joined entries.
Proof.
  destruct entries as [|first others]; [reflexivity|].
  rewrite join_semicolon_cons. unfold semicolon_joined.
  revert first. induction others as [|e others IH]; intros first.
  - simpl. apply app_nil_r.
  - cbn [fold_left flat_map]. rewrite <- IH.
    rewrite <- app_assoc. reflexivity.
Qed.

Lemma tag_text_listed (rows : list GRow) :
  Forall2 listed_as rows (map tag_text rows).
Proof.
  induction rows as [|m rows IH]; simpl; constructor; auto.
  unfold listed_as, tag_text. destruct (source_primary (row m)); reflexivity.
Qed.

(** C3 (defect). In a group whose row labels are distinct and with a sort
    indexer that orders the frame, every block yields a merged row whose
    [source_secondary] is semicolon-joined entries, one for each row of
    the block other than the base, in block order, repeated tags
    repeated; the entry of a member that has a source tag is that tag, as
    the claim says, but the entry of a member whose tag is missing is the
    text ["nan"], which is the source tag of no record: line 50 prints the
    missing value with [str]. *)
Theorem untagged_members_are_listed_as_nan (radius_m : Q)
        (cand : list GRow) :
  indexer_ok sort_indexer ->
  NoDup (map label cand) ->
  exists out,
    dedup_group radius_m cand = Ok out /\
    Forall2
      (fun block merged =>
         exists rows base r1 r2 entries,
           mapM (loc cand) block = Ok rows /\
           select_base cand block = Ok base /\
           rows = r1 ++ base :: r2 /\
           Forall2 listed_as (r1 ++ r2) entries /\
           source_secondary merged = Str (semicolon_joined entries))
      (blocks_of radius_m cand) out.
Proof.
  intros Hok Hnd. unfold dedup_group. rewrite iterrows_mapM.
  apply mapM_total. intros block Hb.
  destruct (block_rows _ _ _ Hb) as [rows [Hrows Hne]].
  destruct (merge_block_spec _ _ _ Hok Hrows Hne)
    as [base [filled [sec [Hs [Hin [Hi [_ [Hp Hm]]]]]]]].
  assert (Hbn : NoDup block)
    by (eapply blocks_from_each_NoDup; eauto).
  destruct (provenance_value cand block rows base filled Hbn Hrows Hin Hi)
    as [r1 [r2 [Hsplit Hv]]].
  rewrite Hv in Hp. inversion Hp; subst sec.
  eexists. split; [exact Hm|].
  exists rows, base, r1, r2, (map tag_text (r1 ++ r2)).
  rewrite source_secondary_set, join_is_semicolon_joined.
  repeat split; auto. apply tag_text_listed.
Qed.

(** C4 (amended). In a group whose row labels are distinct and with a
    sort indexer that orders the frame, every block yields a merged row.
    Where the base row holds a value in a column of
    [prefer_cols] (a text with a non-whitespace character, a number other
    than zero), the merged row has that value; a text of the base that
    the merged row does not have is empty or whitespace only; and a
    merged value differs from the base value only where line 44 counts
    the base value as missing. *)
Theorem merged_keeps_non_blank_base_values (radius_m : Q)
        (cand : list GRow) :
  indexer_ok sort_indexer ->
  NoDup (map label cand) ->
  exists out,
    dedup_group radius_m cand = Ok out /\
    Forall2
      (fun block merged =>
         exists base,
           select_base cand block = Ok base /\
           (forall col, holds (get col (row base)) = true ->
                        get col merged = get col (row base)) /\
           (forall col s, get col (row base) = VStr s ->
                          get col merged <> VStr s -> strip s = []) /\
           (forall col, get col merged <> get col (row base) ->
                        lacking (get col (row base)) = true))
      (blocks_of radius_m cand) out.
Proof.
  intros Hok _. unfold dedup_group. rewrite iterrows_mapM.
  apply mapM_total. intros block Hb.
  destruct (block_rows _ _ _ Hb) as [rows [Hrows Hne]].
  destruct (merge_block_spec _ _ _ Hok Hrows Hne)
    as [base [filled [sec [Hs [_ [_ [Hk [_ Hm]]]]]]]].
  eexists. split; [exact Hm|].
  exists base. split; [exact Hs|].
  assert (Hkeep : forall col, holds (get col (row base)) = true ->
                              get col (set_source_secondary sec filled)
                              = get col (row base)).
  { intros col Hh. rewrite get_set_source_secondary. apply Hk.
    rewrite lacking_holds, Hh. reflexivity. }
  split; [exact Hkeep|]. split.
  - intros col s E Hd.
    destruct (strip s) as [|c t] eqn:Es; [reflexivity|].
    exfalso. apply Hd. rewrite <- E. apply Hkeep.
    rewrite E, holds_text, Es. reflexivity.
  - intros col Hd. rewrite lacking_holds.
    destruct (holds (get col (row base))) eqn:E; [|reflexivity].
    exfalso. apply Hd, Hkeep, E.
Qed.

(** *** The driver *)

Lemma geo_dedup_no_rows (radius_m : Q) :
  _geo_dedup radius_m [] = Err KeyError.
Proof. reflexivity. Qed.

Lemma has_coordinates_set_name (v : cell) (r : Row) :
  has_coordinates (set_name v r) = has_coordinates r.
Proof. destruct r; reflexivity. Qed.

Lemma has_coordinates_set_index (k : nat) (r : Row) :
  has_coordinates (set_index k r) = has_coordinates r.
Proof. destruct r; reflexivity. Qed.

Lemma filter_none {A} (p : A -> bool) (l : list A) :
  Forall (fun x => p x = false) l -> filter p l = [].
Proof.
  induction 1 as [|x l Hx _ IH]; simpl; auto. rewrite Hx; exact IH.
Qed.

Lemma Forall_reset_index (P : Row -> Prop) (rows : list Row) :
  (forall k r, P r -> P (set_index k r)) ->
  Forall P rows -> forall start, Forall P (reset_index start rows).
Proof.
  intros HP. induction 1; simpl; intros start; constructor; auto.
Qed.

(** C6 (defect). A table that has rows, none of them with both
    coordinates, is emptied by line 68, and line 52 then raises
    [KeyError]: the rows are excluded as the claim says, but the pipeline
    fails where the claim promises that it does not. *)
Theorem main_fails_when_no_row_is_located (frames : list (list Row)) :
  concat frames <> [] ->
  Forall (fun r => has_coordinates r = false) (concat frames) ->
  main frames = Err KeyError.
Proof.
  intros Hne Hall. unfold main.
  assert (Hr : Forall (fun r => has_coordinates r = false)
                      (reset_index 0 (concat frames))).
  { apply Forall_reset_index; auto.
    intros k r. rewrite has_coordinates_set_index. auto. }
  destruct (reset_index 0 (concat frames)) as [|r df] eqn:E.
  - destruct (concat frames); [congruence|discriminate].
  - rewrite filter_none; [apply geo_dedup_no_rows|].
    apply Forall_map. revert Hr. apply Forall_impl.
    intros a. rewrite has_coordinates_set_name. auto.
Qed.

(** When the tables read hold no row, the guard of line 62 writes the
    empty table and the engine is not called. *)
Lemma main_of_empty_input (frames : list (list Row)) :
  concat frames = [] -> main frames = Ok [].
Proof. intros H. unfold main. rewrite H. reflexivity. Qed.

(** C7 (defect). The engine does not return the empty collection for the
    empty one: on a frame without rows [_geo_dedup] raises [KeyError] at
    line 52, whatever the radius, and on no frame at all does it return a
    table without rows. *)
Theorem geo_dedup_never_returns_no_rows (radius_m : Q) :
  _geo_dedup radius_m [] = Err KeyError /\
  forall df, _geo_dedup radius_m df <> Ok [].
Proof.
  split; [reflexivity|].
  intros df. unfold _geo_dedup.
  destruct (to_gdf df) as [gdf|]; cbn [bind]; [|discriminate].
  destruct (mapM (dedup_group radius_m) (groupby gdf)) as [groups|];
    cbn [bind]; [|discriminate].
  destruct (concat groups) as [|o rest]; [discriminate|].
  cbn [reset_index]. discriminate.
Qed.

(** *** The frame of line 19 *)

Lemma to_grow_Ok (r : Row) (g : GRow) :
  to_grow r = Ok g -> row g = r /\ cluster_of r = Some (cluster g).
Proof.
  unfold to_grow, cluster_of.
  destruct (cluster_key (points_from_xy (longitude r) (latitude r)));
    intros H; inversion H; subst; auto.
Qed.

Lemma to_gdf_rows (df : list Row) :
  forall gdf, to_gdf df = Ok gdf -> map row gdf = df.
Proof.
  unfold to_gdf. induction df as [|r df IH]; cbn [mapM]; intros gdf H.
  - inversion H. reflexivity.
  - destruct (to_grow r) as [g|] eqn:Eg; cbn [bind] in H; [|discriminate].
    destruct (mapM to_grow df) as [gs|]; cbn [bind] in H; [|discriminate].
    inversion H; subst. cbn [map].
    apply to_grow_Ok in Eg as [-> _]. rewrite (IH gs eq_refl). reflexivity.
Qed.

Lemma to_gdf_keys (df : list Row) :
  forall gdf, to_gdf df = Ok gdf ->
              Forall (fun g => cluster_of (row g) = Some (cluster g)) gdf.
Proof.
  unfold to_gdf. induction df as [|r df IH]; cbn [mapM]; intros gdf H.
  - inversion H. constructor.
  - destruct (to_grow r) as [g|] eqn:Eg; cbn [bind] in H; [|discriminate].
    destruct (mapM to_grow df) as [gs|]; cbn [bind] in H; [|discriminate].
    inversion H; subst. constructor; [|apply IH; reflexivity].
    apply to_grow_Ok in Eg as [-> E]. exact E.
Qed.

Lemma to_gdf_total (df : list Row) :
  Forall (fun r => cluster_of r <> None) df ->
  exists gdf, to_gdf df = Ok gdf.
Proof.
  unfold to_gdf. induction 1 as [|r df Hr _ [gs IH]]; cbn [mapM].
  - eauto.
  - unfold to_grow at 1. unfold cluster_of in Hr.
    destruct (cluster_key (points_from_xy (longitude r) (latitude r)));
      [|congruence].
    cbn [bind]. rewrite IH. cbn [bind]. eauto.
Qed.

Lemma to_gdf_raises (df : list Row) :
  Exists (fun r => cluster_of r = None) df ->
  to_gdf df = Err IntCastingNaNError.
Proof.
  unfold to_gdf. induction 1 as [r df Hr|r df _ IH]; cbn [mapM].
  - unfold to_grow, cluster_of in *. rewrite Hr. reflexivity.
  - rewrite IH. unfold to_grow.
    destruct (cluster_key (points_from_xy (longitude r) (latitude r)));
      reflexivity.
Qed.

Lemma to_gdf_length (df : list Row) (gdf : list GRow) :
  to_gdf df = Ok gdf -> length gdf = length df.
Proof.
  intros H. rewrite <- (to_gdf_rows df gdf H). symmetry. apply length_map.
Qed.

Lemma to_gdf_labels (df : list Row) (gdf : list GRow) :
  to_gdf df = Ok gdf -> map label gdf = map index df.
Proof.
  intros H. rewrite <- (to_gdf_rows df gdf H), map_map. reflexivity.
Qed.

(** *** Row labels in the driver's groups *)

Lemma index_set_name (v : cell) (r : Row) : index (set_name v r) = index r.
Proof. destruct r; reflexivity. Qed.

Lemma index_set_index (k : nat) (r : Row) : index (set_index k r) = k.
Proof. destruct r; reflexivity. Qed.

Lemma reset_index_labels (rows : list Row) :
  forall start,
    map index (reset_index start rows) = seq start (length rows).
Proof.
  induction rows as [|r rows IH]; simpl; intros start; auto.
  rewrite index_set_index, IH. reflexivity.
Qed.

Lemma filtered_index_NoDup (keep : Row -> bool) (rows : list Row) :
  NoDup (map index rows) -> NoDup (map index (filter keep rows)).
Proof.
  induction rows as [|r rows IH]; simpl; intros H; [constructor|].
  apply NoDup_cons_iff in H as [Hn Hl].
  destruct (keep r); simpl; auto.
  constructor; auto.
  intros Hin. apply Hn.
  apply in_map_iff in Hin as [x [E Hx]].
  apply filter_In in Hx as [Hx _].
  rewrite <- E. apply in_map; exact Hx.
Qed.

(** X17. The frame [main] hands to [_geo_dedup] has distinct row labels,
    and so has every group of it: the hypothesis of the block properties
    holds wherever the driver runs them. *)
Lemma main_groups_have_distinct_labels (frames : list (list Row))
      (gdf grp : list GRow) :
  to_gdf (filter has_coordinates
                 (map (fun r => set_name (fillna (name r)) r)
                      (reset_index 0 (concat frames)))) = Ok gdf ->
  In grp (groupby gdf) ->
  NoDup (map label grp).
Proof.
  intros Hgdf. unfold groupby. rewrite in_map_iff. intros [k [<- _]].
  apply filtered_labels_NoDup.
  rewrite (to_gdf_labels _ _ Hgdf).
  apply filtered_index_NoDup.
  rewrite map_map.
  rewrite (map_ext _ index (fun r => index_set_name (fillna (name r)) r)).
  rewrite reset_index_labels. apply seq_NoDup.
Qed.

(** *** Where the rows written come from *)

Lemma same_place_set (col : prefer_col) (v : value) (r : Row) :
  same_place (set col v r) r.
Proof. destruct r, col; split; reflexivity. Qed.

Lemma backfill_all_same_place (cand : list GRow) (block : list nat)
      (cols : list prefer_col) :
  forall merged filled,
    backfill_all cand block merged cols = Ok filled ->
    same_place filled merged.
Proof.
  induction cols as [|col cols IH]; simpl; intros merged filled H.
  - inversion H; split; reflexivity.
  - destruct (backfill cand block merged col) as [m1|] eqn:E; simpl in H;
      [|discriminate].
    assert (H1 : same_place m1 merged).
    { unfold backfill in E.
      destruct (columns col && lacking (get col merged)).
      - destruct (first_usable cand col block) as [[val|]|]; simpl in E;
          inversion E; subst; [apply same_place_set | split; reflexivity].
      - inversion E; split; reflexivity. }
    destruct (IH _ _ H) as [Ha Hb]. destruct H1 as [Hc Hd].
    split; congruence.
Qed.

Lemma select_base_member (cand : list GRow) (block : list nat)
      (base : GRow) :
  select_base cand block = Ok base -> In base cand.
Proof.
  unfold select_base. intros H.
  destruct (mapM (loc cand) block) as [rows|] eqn:Er; simpl in H;
    [|discriminate].
  destruct (sort_values rows) as [sorted|] eqn:Es; simpl in H;
    [|discriminate].
  destruct sorted as [|g sorted]; simpl in H; inversion H; subst.
  apply mapM_Ok in Es. inversion Es as [|p ? ps ? Hp _]; subst.
  destruct (nth_error rows p) as [g|] eqn:En; inversion Hp; subst.
  apply nth_error_In in En.
  destruct (Forall2_In_r _ _ _ _ (mapM_Ok _ _ _ Er) En) as [k [_ Hk]].
  apply loc_Ok in Hk. tauto.
Qed.

Lemma merge_block_same_place (cand : list GRow) (block : list nat)
      (merged : Row) :
  merge_block cand block = Ok merged ->
  exists base, In base cand /\ same_place merged (row base).
Proof.
  unfold merge_block. intros H.
  destruct (select_base cand block) as [base|] eqn:Eb; cbn [bind] in H;
    [|discriminate].
  destruct (backfill_all cand block (row base) prefer_cols) as [filled|]
    eqn:Ef; cbn [bind] in H; [|discriminate].
  destruct (provenance cand block filled) as [sec|]; cbn [bind] in H;
    inversion H; subst.
  exists base. split; [eapply select_base_member; eauto|].
  apply backfill_all_same_place in Ef.
  destruct filled; exact Ef.
Qed.

Lemma dedup_group_same_place (radius_m : Q) (cand : list GRow)
      (out : list Row) :
  dedup_group radius_m cand = Ok out ->
  Forall (fun o => exists base, In base cand /\ same_place o (row base)) out.
Proof.
  unfold dedup_group. rewrite iterrows_mapM. intros H.
  apply mapM_Ok in H. induction H; constructor; auto.
  eapply merge_block_same_place; eauto.
Qed.

(** When [main] writes a table, each of its rows stands at the place of an
    input row, and has both coordinates: no row is written for a record
    lacking one. *)
Lemma main_writes_located_rows (frames : list (list Row)) (out : list Row) :
  main frames = Ok out ->
  Forall (fun o => has_coordinates o = true) out.
Proof.
  unfold main.
  destruct (reset_index 0 (concat frames)) as [|r0 df0];
    [intros H; inversion H; constructor|].
  set (df := filter has_coordinates _).
  unfold _geo_dedup. intros H.
  destruct (to_gdf df) as [gdf|] eqn:Egdf; cbn [bind] in H; [|discriminate].
  destruct (mapM (dedup_group default_radius_m) (groupby gdf))
    as [groups|] eqn:Eg; simpl in H; [|discriminate].
  assert (Hsrc : forall grp, In grp (groupby gdf) ->
                 Forall (fun g => has_coordinates (row g) = true) grp).
  { intros grp Hg. unfold groupby in Hg.
    apply in_map_iff in Hg as [k [<- _]].
    apply Forall_forall. intros g Hb.
    apply filter_In in Hb as [Hb _].
    assert (Hr : In (row g) df).
    { rewrite <- (to_gdf_rows df gdf Egdf). apply in_map, Hb. }
    apply filter_In in Hr as [_ Hr]. exact Hr. }
  assert (Hall : Forall (fun o => has_coordinates o = true) (concat groups)).
  { clear H. apply mapM_Ok in Eg. revert Hsrc Eg.
    generalize (groupby gdf). intros G Hsrc Eg. revert Hsrc.
    induction Eg as [|grp rows grps rest Hd _ IH]; intros Hsrc; simpl.
    - constructor.
    - apply Forall_app. split.
      + specialize (Hsrc grp (or_introl eq_refl)).
        rewrite Forall_forall in Hsrc.
        apply dedup_group_same_place in Hd.
        revert Hd. apply Forall_impl. intros o [base [Hb [Hla Hlo]]].
        specialize (Hsrc base Hb).
        unfold has_coordinates in *. rewrite Hla, Hlo. exact Hsrc.
      + apply IH. intros g Hg. apply Hsrc. right; exact Hg. }
  destruct (concat groups) as [|o rest]; [discriminate|].
  inversion H; subst.
  change (Forall (fun o => has_coordinates o = true)
                 (reset_index 0 (o :: rest))).
  apply Forall_reset_index; auto.
  intros k r. rewrite has_coordinates_set_index. auto.
Qed.

(** *** Line 34 against the specification's step 3 *)

(** Where each name is truthy exactly when its normalized form is
    non-empty, the inner loop appends [j] exactly when [j] is another,
    not yet used row that meets the specification's condition. *)
Lemma appended_agrees_with_spec (radius_m : Q) (used : list nat)
      (i j : GRow) :
  truthy (name (row i)) = nonempty (_norm_name (name (row i))) ->
  truthy (name (row j)) = nonempty (_norm_name (name (row j))) ->
  appended radius_m used i j =
  negb (Nat.eqb (label j) (label i) || mem (label j) used)
  && spec_step3 radius_m i j.
Proof.
  intros Hi Hj. unfold appended, spec_step3, name_match, _fuzzy.
  destruct (Nat.eqb (label j) (label i) || mem (label j) used);
    [reflexivity|].
  destruct (Qle_bool (distance (geom i) (geom j)) radius_m);
    [|reflexivity].
  simpl. f_equal. rewrite Hi, Hj.
  destruct (str_eqb (_norm_name (name (row i))) (_norm_name (name (row j))))
    eqn:E.
  - apply str_eqb_eq in E. rewrite <- E.
    destruct (nonempty (_norm_name (name (row i)))); reflexivity.
  - rewrite andb_false_r. reflexivity.
Qed.

(** X18. Two rows whose names are the empty string (what line 67 makes
    of absent names) are never put in one block by a scorer that gives
    two empty strings less than 80. *)
Lemma empty_names_are_kept_apart (radius_m : Q) (used : list nat)
      (i j : GRow) :
  name (row i) = Str [] -> name (row j) = Str [] ->
  Qle_bool 80 (token_set_ratio [] []) = false ->
  appended radius_m used i j = false.
Proof.
  intros Hi Hj Hlow. unfold appended, name_match, _fuzzy.
  rewrite Hi, Hj.
  change (_norm_name (Str [])) with (@nil char). rewrite Hlow.
  destruct (Nat.eqb (label j) (label i) || mem (label j) used);
    [reflexivity|].
  destruct (Qle_bool (distance (geom i) (geom j)) radius_m); reflexivity.
Qed.

(** Two truthy names with one normalized form match whatever they score. *)
Lemma name_match_same_normal_form (r r2 : Row) :
  truthy (name r) = true -> truthy (name r2) = true ->
  _norm_name (name r) = _norm_name (name r2) ->
  name_match r r2 = true.
Proof.
  intros H1 H2 E. unfold name_match.
  rewrite H1, H2, E, str_eqb_refl. apply orb_true_r.
Qed.

(** ** Further properties of the model *)

Lemma str_leb_total (a : str) :
  forall b, str_leb a b = false -> str_leb b a = true.
Proof.
  induction a as [|x a IH]; intros [|y b]; simpl; try congruence.
  destruct (N.ltb_spec x y); [congruence|].
  destruct (N.eqb_spec x y) as [->|Hne].
  - rewrite N.ltb_irrefl, N.eqb_refl. apply IH.
  - intros _. destruct (N.ltb_spec y x); [reflexivity|lia].
Qed.

Lemma str_leb_trans (a : str) :
  forall b c, str_leb a b = true -> str_leb b c = true -> str_leb a c = true.
Proof.
  induction a as [|x a IH]; intros [|y b] [|z c]; simpl; try congruence.
  destruct (N.ltb_spec x y) as [Hxy|Hxy].
  - intros _. destruct (N.ltb_spec y z) as [Hyz|Hyz].
    + intros _. destruct (N.ltb_spec x z); [reflexivity|lia].
    + destruct (N.eqb_spec y z) as [->|]; [|congruence].
      intros _. destruct (N.ltb_spec x z); [reflexivity|lia].
  - destruct (N.eqb_spec x y) as [->|]; [|congruence].
    intros Hab. destruct (N.ltb_spec y z); [reflexivity|].
    destruct (N.eqb_spec y z); [|congruence].
    apply IH, Hab.
Qed.

Lemma str_leb_antisym (a : str) :
  forall b, str_leb a b = true -> str_leb b a = true -> a = b.
Proof.
  induction a as [|x a IH]; intros [|y b]; simpl; try congruence.
  destruct (N.ltb_spec x y) as [Hxy|Hxy].
  - intros _. destruct (N.ltb_spec y x); [lia|].
    destruct (N.eqb_spec y x); [lia|discriminate].
  - destruct (N.eqb_spec x y) as [->|]; [|discriminate].
    rewrite N.ltb_irrefl, N.eqb_refl. intros H1 H2. f_equal. auto.
Qed.

(** *** Normalized names *)

Lemma dropwhile_fixed_head {A} (p : A -> bool) (c : A) (l : list A) :
  dropwhile p (c :: l) = c :: l -> p c = false.
Proof.
  simpl. destruct (p c); [|reflexivity]. intros H. exfalso.
  destruct (dropwhile_suffix p l) as [pre Hpre].
  apply (f_equal (@length A)) in Hpre. rewrite length_app, H in Hpre.
  simpl in Hpre. lia.
Qed.

Lemma strip_keeps_no_leading (s : str) :
  dropwhile isspace (strip s) = strip s.
Proof.
  unfold strip.
  set (a := dropwhile isspace s).
  destruct (dropwhile isspace (rev a)) as [|x b] eqn:Eb; [reflexivity|].
  destruct (dropwhile_suffix isspace (rev a)) as [c Hc]. rewrite Eb in Hc.
  apply dropwhile_fixed_prefix with (y := rev c).
  - rewrite <- rev_app_distr, <- Hc, rev_involutive. apply dropwhile_idem.
  - intros H. apply (f_equal (@length _)) in H.
    rewrite length_rev in H. discriminate.
Qed.

Lemma norm_name_outer_characters (s : cell) :
  (forall c rest, _norm_name s = c :: rest -> isspace c = false) /\
  (forall front c, _norm_name s = front ++ [c] -> isspace c = false).
Proof.
  destruct s as [|s]; [split; intros; [discriminate | destruct front; discriminate]|].
  rewrite norm_name_Str. set (t := flat_map lower (filter kept s)). split.
  - intros c rest E. apply dropwhile_fixed_head with (l := rest).
    rewrite <- E. apply strip_keeps_no_leading.
  - intros front c E. unfold strip in E.
    apply (f_equal (@rev char)) in E.
    rewrite rev_involutive, rev_app_distr in E. simpl in E.
    apply dropwhile_fixed_head with (l := rev front).
    rewrite <- E. apply dropwhile_idem.
Qed.

(** X1. A normalized name neither starts nor ends with a whitespace
    character: its first character, and the first character of its
    reverse, are not whitespace when there is one. *)
Theorem norm_name_has_no_outer_whitespace (s : cell) :
  match _norm_name s with
  | [] => True
  | c :: _ => isspace c = false
  end /\
  match rev (_norm_name s) with
  | [] => True
  | c :: _ => isspace c = false
  end.
Proof.
  destruct (norm_name_outer_characters s) as [Hfirst Hlast]. split.
  - destruct (_norm_name s) as [|c rest] eqn:E; [exact I|].
    apply (Hfirst c rest eq_refl).
  - destruct (rev (_norm_name s)) as [|c rest] eqn:E; [exact I|].
    apply (Hlast (rev rest) c).
    rewrite <- (rev_involutive (_norm_name s)), E. reflexivity.
Qed.

(** X2. A character that is neither alphanumeric nor whitespace leaves no
    trace: inserting it anywhere in a name does not change the normalized
    name. *)
Theorem norm_name_ignores_dropped_characters (s1 s2 : str) (c : char) :
  isalnum c = false -> isspace c = false ->
  _norm_name (Str (s1 ++ c :: s2)) = _norm_name (Str (s1 ++ s2)).
Proof.
  intros Ha Hs. rewrite !norm_name_Str, !filter_app. simpl.
  unfold kept at 2. rewrite Ha, Hs. reflexivity.
Qed.

Lemma dropwhile_app_all {A} (p : A -> bool) (ws x : list A) :
  Forall (fun c => p c = true) ws -> dropwhile p (ws ++ x) = dropwhile p x.
Proof.
  induction 1 as [|c ws Hc _ IH]; simpl; auto. rewrite Hc. exact IH.
Qed.

Lemma dropwhile_app_kept {A} (p : A -> bool) (t x : list A) :
  dropwhile p t <> [] -> dropwhile p (t ++ x) = dropwhile p t ++ x.
Proof.
  induction t as [|c t IH]; simpl; [congruence|].
  destruct (p c); auto.
Qed.

Lemma dropwhile_nil_all {A} (p : A -> bool) (t : list A) :
  dropwhile p t = [] -> Forall (fun c => p c = true) t.
Proof.
  induction t as [|c t IH]; simpl; [constructor|].
  destruct (p c) eqn:E; [|discriminate]. constructor; auto.
Qed.

Lemma strip_app_trailing (t ws : str) :
  Forall (fun c => isspace c = true) ws -> strip (t ++ ws) = strip t.
Proof.
  intros Hws. unfold strip.
  destruct (dropwhile isspace t) as [|x a] eqn:Ea.
  - apply dropwhile_nil_all in Ea.
    rewrite (dropwhile_app_all _ _ _ Ea).
    assert (E : dropwhile isspace ws = [])
      by (rewrite <- (app_nil_r ws), dropwhile_app_all; auto).
    rewrite E. reflexivity.
  - rewrite dropwhile_app_kept by congruence. rewrite Ea.
    rewrite rev_app_distr, dropwhile_app_all; [reflexivity|].
    apply Forall_rev, Hws.
Qed.

Lemma spaces_pass_unchanged (ws : str) :
  (forall c, isspace c = true -> lower c = [c]) ->
  Forall (fun c => isspace c = true) ws ->
  flat_map lower (filter kept ws) = ws.
Proof.
  intros Hl. induction 1 as [|c ws Hc _ IH]; simpl; auto.
  unfold kept at 1. rewrite Hc, orb_true_r. simpl.
  rewrite (Hl c Hc), IH. reflexivity.
Qed.

(** X3. Where lower-casing leaves whitespace characters as they are,
    whitespace around a name does not change the normalized name. *)
Theorem norm_name_ignores_outer_whitespace (ws s ws' : str) :
  (forall c, isspace c = true -> lower c = [c]) ->
  Forall (fun c => isspace c = true) ws ->
  Forall (fun c => isspace c = true) ws' ->
  _norm_name (Str (ws ++ s ++ ws')) = _norm_name (Str s).
Proof.
  intros Hl Hws Hws'. rewrite !norm_name_Str, !filter_app, !flat_map_app.
  rewrite (spaces_pass_unchanged _ Hl Hws), (spaces_pass_unchanged _ Hl Hws').
  rewrite app_assoc, strip_app_trailing by exact Hws'.
  unfold strip. rewrite dropwhile_app_all by exact Hws. reflexivity.
Qed.

(** *** The matching test and the blocks *)

Lemma str_eqb_sym (a b : str) : str_eqb a b = str_eqb b a.
Proof.
  destruct (str_eqb a b) eqn:E.
  - apply str_eqb_eq in E. subst. symmetry. apply str_eqb_refl.
  - destruct (str_eqb b a) eqn:E'; [|reflexivity].
    apply str_eqb_eq in E'. subst. rewrite str_eqb_refl in E. discriminate.
Qed.

(** X4. With a symmetric scorer and a symmetric distance, whether two
    unused rows are put together does not depend on which of them seeds
    the block. *)
Theorem appended_symmetric (radius_m : Q) (used : list nat) (i j : GRow) :
  (forall a b, token_set_ratio a b = token_set_ratio b a) ->
  (forall p q, distance p q = distance q p) ->
  ~ In (label i) used -> ~ In (label j) used ->
  appended radius_m used i j = appended radius_m used j i.
Proof.
  intros Hs Hd Hi Hj. unfold appended, name_match, _fuzzy.
  apply mem_not_In in Hi. apply mem_not_In in Hj.
  rewrite Hi, Hj, (Nat.eqb_sym (label j) (label i)).
  rewrite (Hd (geom i) (geom j)).
  rewrite (Hs (_norm_name (name (row i))) (_norm_name (name (row j)))).
  rewrite (str_eqb_sym (_norm_name (name (row i)))
                       (_norm_name (name (row j)))).
  rewrite (andb_comm (truthy (name (row i))) (truthy (name (row j)))).
  reflexivity.
Qed.

Lemma blocks_from_are_built (radius_m : Q) (cand todo : list GRow) :
  incl todo cand ->
  forall used block,
    In block (blocks_from radius_m cand todo used) ->
    exists i used', In i cand /\ block = build_block radius_m cand used' i.
Proof.
  induction todo as [|i todo IH]; intros Hin used block Hb.
  - contradiction.
  - assert (Hi : In i cand) by (apply Hin; left; reflexivity).
    assert (Ht : incl todo cand) by (intros x Hx; apply Hin; right; exact Hx).
    rewrite blocks_from_cons in Hb.
    destruct (mem (label i) used); [eauto|].
    destruct Hb as [<-|Hb]; eauto.
Qed.

(** X5. Every block is a star around its seed: it begins with the label of
    a row of the group, and each further label is that of another row of
    the group that lies within the radius of the seed and whose name
    matches the seed's. Members are never compared with one another. *)
Theorem blocks_are_stars (radius_m : Q) (cand : list GRow)
        (block : list nat) :
  In block (blocks_of radius_m cand) ->
  exists i rest,
    In i cand /\ block = label i :: rest /\
    forall k, In k rest ->
      exists j, In j cand /\ label j = k /\ label j <> label i /\
                Qle_bool (distance (geom i) (geom j)) radius_m = true /\
                name_match (row i) (row j) = true.
Proof.
  intros Hb.
  destruct (blocks_from_are_built radius_m cand cand (incl_refl _) _ _ Hb)
    as [i [used' [Hi ->]]].
  exists i, (map label (filter (appended radius_m used' i) cand)).
  split; [exact Hi|]. split; [reflexivity|].
  intros k Hk. apply in_map_iff in Hk as [j [E Hj]].
  apply filter_In in Hj as [Hj Ha].
  apply appended_true in Ha as [Hne [_ [Hd Hn]]].
  exists j. auto.
Qed.

Lemma blocks_from_in_frame_order (radius_m : Q) (cand : list GRow) :
  NoDup (map label cand) ->
  forall todo pre used,
    cand = pre ++ todo ->
    (forall g, In g pre -> In (label g) used) ->
    forall block,
      In block (blocks_from radius_m cand todo used) ->
      exists keep, block = map label (filter keep cand).
Proof.
  intros Hnd. induction todo as [|i todo IH]; intros pre used Hc Hu block Hb.
  - contradiction.
  - rewrite blocks_from_cons in Hb.
    assert (Hc' : cand = (pre ++ [i]) ++ todo)
      by (rewrite <- app_assoc; exact Hc).
    destruct (mem (label i) used) eqn:M.
    + apply mem_In in M. apply (IH (pre ++ [i]) used Hc'); auto.
      intros g Hg. apply in_app_or in Hg as [Hg|[<-|[]]]; auto.
    + apply mem_not_In in M. destruct Hb as [<-|Hb].
      * exists (fun g => Nat.eqb (label g) (label i)
                        || appended radius_m used i g).
        unfold build_block.
        rewrite Hc in Hnd |- *. rewrite map_app in Hnd. simpl in Hnd.
        apply NoDup_remove_2 in Hnd.
        rewrite !filter_app. simpl.
        rewrite Nat.eqb_refl. simpl.
        assert (Hself : appended radius_m used i i = false)
          by (unfold appended; rewrite Nat.eqb_refl; reflexivity).
        rewrite Hself.
        assert (Hpre1 : filter (appended radius_m used i) pre = []).
        { apply filter_none. apply Forall_forall. intros g Hg.
          unfold appended. apply Hu, mem_In in Hg. rewrite Hg.
          rewrite orb_true_r. reflexivity. }
        assert (Hpre2 : filter (fun g => Nat.eqb (label g) (label i)
                                         || appended radius_m used i g) pre
                        = []).
        { apply filter_none. apply Forall_forall. intros g Hg.
          apply orb_false_iff. split.
          - apply Nat.eqb_neq. intros E. apply Hnd, in_or_app. left.
            rewrite <- E. apply in_map, Hg.
          - unfold appended. apply Hu, mem_In in Hg. rewrite Hg.
            rewrite orb_true_r. reflexivity. }
        rewrite Hpre1, Hpre2. simpl. do 2 f_equal.
        apply filter_ext_in. intros g Hg.
        assert (E : Nat.eqb (label g) (label i) = false).
        { apply Nat.eqb_neq. intros E. apply Hnd, in_or_app. right.
          rewrite <- E. apply in_map, Hg. }
        rewrite E. reflexivity.
      * apply (IH (pre ++ [i]) (build_block radius_m cand used i ++ used)
                  Hc'); auto.
        intros g Hg. apply in_or_app.
        apply in_app_or in Hg as [Hg|[<-|[]]]; auto.
        left. left. reflexivity.
Qed.

(** X6. In a group whose row labels are distinct, every block lists its
    rows in the order of the frame: the seed is the earliest of them, so a
    block is the labels of the rows that some test keeps, in frame order. *)
Theorem blocks_in_frame_order (radius_m : Q) (cand : list GRow)
        (block : list nat) :
  NoDup (map label cand) ->
  In block (blocks_of radius_m cand) ->
  exists keep, block = map label (filter keep cand).
Proof.
  intros Hnd Hb.
  apply (blocks_from_in_frame_order radius_m cand Hnd cand [] []
           eq_refl (fun g H => match H with end) block Hb).
Qed.

Lemma blocks_from_length (radius_m : Q) (cand todo : list GRow) :
  forall used, length (blocks_from radius_m cand todo used) <= length todo.
Proof.
  induction todo as [|i todo IH]; intros used; [reflexivity|].
  rewrite blocks_from_cons. destruct (mem (label i) used); cbn [length].
  - specialize (IH used). lia.
  - specialize (IH (build_block radius_m cand used i ++ used)). lia.
Qed.

Lemma mapM_length {A B} (f : A -> result B) (l : list A) (ys : list B) :
  mapM f l = Ok ys -> length ys = length l.
Proof.
  intros H. apply mapM_Ok in H. induction H; simpl; auto.
Qed.

Lemma dedup_group_count (radius_m : Q) (cand : list GRow) (out : list Row) :
  dedup_group radius_m cand = Ok out ->
  length out = length (blocks_of radius_m cand) /\
  length out <= length cand /\
  (cand <> [] -> out <> []).
Proof.
  unfold dedup_group, blocks_of. rewrite iterrows_mapM. intros H.
  apply mapM_length in H. split; [exact H|]. split.
  - rewrite H. apply blocks_from_length.
  - intros Hne Ho. subst out. simpl in H.
    destruct cand as [|i cand]; [congruence|].
    rewrite blocks_from_cons in H. simpl in H. discriminate.
Qed.

(** X7. A group yields one merged row per block: never more rows than it
    has, and at least one when it has any. *)
Theorem dedup_group_row_count (radius_m : Q) (cand : list GRow)
        (out : list Row) :
  dedup_group radius_m cand = Ok out ->
  length out = length (blocks_of radius_m cand) /\
  length out <= length cand /\
  (cand <> [] -> out <> []).
Proof. apply dedup_group_count. Qed.

(** *** Buckets *)

Lemma insert_key_In (k x : str) (keys : list str) :
  In x (insert_key k keys) <-> x = k \/ In x keys.
Proof.
  clear token_set_ratio float_repr.
  induction keys as [|k' keys IH]; simpl.
  - intuition.
  - destruct (str_eqb k k') eqn:E.
    + apply str_eqb_eq in E. subst. simpl. intuition.
    + destruct (str_leb k k'); simpl; [intuition|].
      rewrite IH. intuition.
Qed.

Lemma group_keys_In (gdf : list GRow) (k : str) :
  In k (group_keys gdf) <-> exists g, In g gdf /\ cluster g = k.
Proof.
  clear token_set_ratio float_repr.
  unfold group_keys. induction gdf as [|g gdf IH]; simpl.
  - split; [tauto|]. intros [g [[] _]].
  - rewrite insert_key_In, IH. split.
    + intros [->|[g' [H1 H2]]]; eauto.
    + intros [g' [[<-|H1] H2]]; eauto.
Qed.

Lemma insert_key_ascending (k : str) (keys : list str) :
  StronglySorted (fun a b => str_leb a b = true /\ a <> b) keys ->
  StronglySorted (fun a b => str_leb a b = true /\ a <> b)
                 (insert_key k keys).
Proof.
  induction 1 as [|k' keys Hs IH Hk]; simpl.
  - repeat constructor.
  - destruct (str_eqb k k') eqn:E; [constructor; assumption|].
    assert (Hne : k <> k').
    { intros ->. rewrite str_eqb_refl in E. discriminate. }
    destruct (str_leb k k') eqn:L.
    + constructor; [constructor; assumption|].
      constructor; [auto|].
      rewrite Forall_forall in Hk |- *. intros x Hx.
      destruct (Hk x Hx) as [H1 H2]. split.
      * eapply str_leb_trans; eauto.
      * intros <-. apply Hne. apply str_leb_antisym; auto.
    + constructor; [exact IH|].
      apply Forall_forall. intros x Hx. apply insert_key_In in Hx.
      destruct Hx as [->|Hx].
      * split; [apply str_leb_total, L | congruence].
      * rewrite Forall_forall in Hk. auto.
Qed.

Lemma group_keys_NoDup (gdf : list GRow) : NoDup (group_keys gdf).
Proof.
  assert (H : StronglySorted (fun a b => str_leb a b = true /\ a <> b)
                             (group_keys gdf)).
  { unfold group_keys. induction (map cluster gdf) as [|k ks IH]; simpl.
    - constructor.
    - apply insert_key_ascending, IH. }
  induction H as [|k keys _ IH Hk]; constructor; auto.
  intros Hin. rewrite Forall_forall in Hk. destruct (Hk k Hin); congruence.
Qed.

Lemma concat_nils {A B} (K : list A) :
  concat (map (fun _ : A => @nil B) K) = [].
Proof. induction K; simpl; auto. Qed.

Lemma groups_are_a_permutation (K : list str) (l : list GRow) :
  NoDup K ->
  (forall g, In g l -> In (cluster g) K) ->
  Permutation
    (concat (map (fun k => filter (fun g => str_eqb (cluster g) k) l) K)) l.
Proof.
  intros Hnd. induction l as [|g l IH]; intros Hin.
  - simpl. rewrite concat_nils. constructor.
  - assert (Hg : In (cluster g) K) by (apply Hin; left; reflexivity).
    assert (IH' := IH (fun x Hx => Hin x (or_intror Hx))). clear IH.
    apply in_split in Hg as [K1 [K2 E]]. rewrite E in Hnd, IH' |- *.
    apply NoDup_remove_2 in Hnd.
    assert (Hother : forall K', (forall k, In k K' -> k <> cluster g) ->
              map (fun k => filter (fun x => str_eqb (cluster x) k) (g :: l)) K'
              = map (fun k => filter (fun x => str_eqb (cluster x) k) l) K').
    { intros K' HK. apply map_ext_in. intros k Hk. simpl.
      destruct (str_eqb (cluster g) k) eqn:Ek; [|reflexivity].
      apply str_eqb_eq in Ek. exfalso. apply (HK k Hk). congruence. }
    rewrite !map_app, !concat_app in IH' |- *.
    cbn [map concat] in IH' |- *.
    rewrite (Hother K1), (Hother K2).
    + cbn [filter]. rewrite str_eqb_refl.
      etransitivity; [|apply perm_skip, IH'].
      symmetry. apply Permutation_middle.
    + intros k Hk ->. apply Hnd, in_or_app. auto.
    + intros k Hk ->. apply Hnd, in_or_app. auto.
Qed.

Lemma distinct_keys_distinct_groups (l : list GRow) (K : list str) :
  NoDup K ->
  ForallOrdPairs
    (fun g1 g2 => forall a b, In a g1 -> In b g2 -> cluster a <> cluster b)
    (map (fun k => filter (fun g => str_eqb (cluster g) k) l) K).
Proof.
  induction 1 as [|k K Hk _ IH]; simpl; constructor; auto.
  apply Forall_forall. intros grp Hgrp a b Ha Hb.
  apply in_map_iff in Hgrp as [k' [<- Hk']].
  apply filter_In in Ha as [_ Ea]. apply filter_In in Hb as [_ Eb].
  apply str_eqb_eq in Ea. apply str_eqb_eq in Eb.
  intros E. apply Hk. congruence.
Qed.

Lemma groupby_groups (gdf grp : list GRow) :
  In grp (groupby gdf) ->
  grp <> [] /\ incl grp gdf /\
  exists k, forall g, In g grp -> cluster g = k.
Proof.
  clear token_set_ratio float_repr.
  unfold groupby. intros H. apply in_map_iff in H as [k [<- Hk]].
  apply group_keys_In in Hk as [g [Hg Eg]]. split; [|split].
  - intros E.
    assert (Hin : In g (filter (fun x => str_eqb (cluster x) k) gdf))
      by (apply filter_In; split; [exact Hg | apply str_eqb_eq, Eg]).
    rewrite E in Hin. contradiction.
  - intros x Hx. apply filter_In in Hx. tauto.
  - exists k. intros x Hx. apply filter_In in Hx as [_ Ex].
    apply str_eqb_eq, Ex.
Qed.

Lemma groupby_permutation (gdf : list GRow) :
  Permutation (concat (groupby gdf)) gdf.
Proof.
  apply groups_are_a_permutation; [apply group_keys_NoDup|].
  intros g Hg. apply group_keys_In. eauto.
Qed.

(** X8. Bucketing loses and repeats nothing: the groups of line 22, laid
    end to end, are a rearrangement of the frame; each group is non-empty
    and holds rows of one cluster key, and rows of different groups have
    different keys, so rows of different keys are never compared. *)
Theorem groupby_partitions_the_frame (gdf : list GRow) :
  Permutation (concat (groupby gdf)) gdf /\
  (forall grp, In grp (groupby gdf) ->
     grp <> [] /\ exists k, forall g, In g grp -> cluster g = k) /\
  ForallOrdPairs
    (fun g1 g2 => forall a b, In a g1 -> In b g2 -> cluster a <> cluster b)
    (groupby gdf).
Proof.
  split; [apply groupby_permutation|]. split.
  - intros grp H. destruct (groupby_groups gdf grp H) as [H1 [_ H2]]. auto.
  - apply distinct_keys_distinct_groups, group_keys_NoDup.
Qed.

(** *** What [_geo_dedup] and [main] return *)

Lemma dedup_group_total (radius_m : Q) (cand : list GRow) :
  indexer_ok sort_indexer ->
  exists out, dedup_group radius_m cand = Ok out.
Proof.
  intros Hok. unfold dedup_group. rewrite iterrows_mapM.
  destruct (mapM_total (merge_block cand) (fun _ _ => True)
                       (blocks_from radius_m cand cand []))
    as [out [E _]]; [|eauto].
  intros block Hb.
  destruct (block_rows _ _ _ Hb) as [rows [Hrows Hne]].
  destruct (merge_block_spec _ _ _ Hok Hrows Hne)
    as [base [filled [sec [_ [_ [_ [_ [_ Hm]]]]]]]].
  eauto.
Qed.

Lemma length_reset_index (rows : list Row) :
  forall start, length (reset_index start rows) = length rows.
Proof. induction rows; simpl; auto. Qed.

Lemma geo_dedup_on_rows (radius_m : Q) (df : list Row) (gdf : list GRow) :
  indexer_ok sort_indexer -> df <> [] -> to_gdf df = Ok gdf ->
  exists out,
    _geo_dedup radius_m df = Ok out /\ out <> [] /\
    length out <= length df /\ map index out = seq 0 (length out).
Proof.
  intros Hok Hne Hgdf. unfold _geo_dedup. rewrite Hgdf. cbn [bind].
  pose proof (to_gdf_length df gdf Hgdf) as Hlen.
  destruct (mapM_total (dedup_group radius_m)
              (fun grp out => length out <= length grp /\
                              (grp <> [] -> out <> []))
              (groupby gdf)) as [groups [Eg Fg]].
  { intros grp _. destruct (dedup_group_total radius_m grp Hok) as [out Eo].
    exists out. split; [exact Eo|].
    destruct (dedup_group_count radius_m grp out Eo) as [_ [H1 H2]]. auto. }
  rewrite Eg. cbn [bind].
  assert (Hsum : length (concat groups) <= length (concat (groupby gdf))).
  { clear Eg. induction Fg as [|grp out G outs [H1 _] _ IH]; simpl; auto.
    rewrite !length_app. lia. }
  rewrite (Permutation_length (groupby_permutation gdf)), Hlen in Hsum.
  assert (Hsome : concat groups <> []).
  { destruct gdf as [|g gdf].
    - destruct df; [congruence|discriminate].
    - assert (Hk : In (cluster g) (group_keys (g :: gdf))).
      { apply group_keys_In. eexists. split; [left; reflexivity|reflexivity]. }
      unfold groupby in Fg, Eg.
      destruct (group_keys (g :: gdf)) as [|k ks] eqn:Ek; [contradiction|].
      assert (Hg : In (filter (fun g0 => str_eqb (cluster g0) k) (g :: gdf))
                      (groupby (g :: gdf))).
      { unfold groupby. rewrite Ek. left. reflexivity. }
      apply groupby_groups in Hg as [Hg _].
      simpl in Fg. inversion Fg as [|? out ? outs [_ H2] _]; subst.
      simpl. specialize (H2 Hg). destruct out; [congruence|discriminate]. }
  destruct (concat groups) as [|o rest] eqn:Ec; [congruence|].
  exists (reset_index 0 (o :: rest)). split; [reflexivity|].
  split; [discriminate|]. split.
  - rewrite length_reset_index. exact Hsum.
  - rewrite reset_index_labels, length_reset_index. reflexivity.
Qed.

Lemma geo_dedup_raises (radius_m : Q) (df : list Row) :
  Exists (fun r => cluster_of r = None) df ->
  _geo_dedup radius_m df = Err IntCastingNaNError.
Proof.
  intros H. unfold _geo_dedup. rewrite (to_gdf_raises df H). reflexivity.
Qed.

(** X9. What [_geo_dedup] does with a frame whose row labels are distinct,
    with a sort indexer that orders the frame: on a frame without rows it
    raises [KeyError]; where a row has no finite key at line 19 it raises
    [IntCastingNaNError]; on any other frame it returns at least one row
    and no more rows than it was given, labelled 0, 1, 2, ... *)
Theorem geo_dedup_outcome (radius_m : Q) (df : list Row) :
  indexer_ok sort_indexer ->
  NoDup (map index df) ->
  (df = [] -> _geo_dedup radius_m df = Err KeyError) /\
  (Exists (fun r => cluster_of r = None) df ->
   _geo_dedup radius_m df = Err IntCastingNaNError) /\
  (df <> [] -> Forall (fun r => cluster_of r <> None) df ->
   exists out,
     _geo_dedup radius_m df = Ok out /\ out <> [] /\
     length out <= length df /\ map index out = seq 0 (length out)).
Proof.
  intros Hok _. split; [|split].
  - intros ->. apply geo_dedup_no_rows.
  - apply geo_dedup_raises.
  - intros Hne Hkeys. destruct (to_gdf_total df Hkeys) as [gdf Hgdf].
    apply (geo_dedup_on_rows radius_m df gdf Hok Hne Hgdf).
Qed.

Lemma located_count (rows : list Row) :
  forall start,
    length (filter has_coordinates
                   (map (fun r => set_name (fillna (name r)) r)
                        (reset_index start rows)))
    = length (filter has_coordinates rows).
Proof.
  induction rows as [|r rows IH]; simpl; intros start; auto.
  rewrite has_coordinates_set_name, has_coordinates_set_index.
  destruct (has_coordinates r); simpl; rewrite IH; reflexivity.
Qed.

Lemma cluster_of_relabelled (v : cell) (k : nat) (r : Row) :
  cluster_of (set_name v (set_index k r)) = cluster_of r.
Proof. destruct r; reflexivity. Qed.

Lemma reset_index_keeps (rows : list Row) (r : Row) :
  forall start,
    In r rows -> exists k, In (set_index k r) (reset_index start rows).
Proof.
  induction rows as [|r0 rows IH]; simpl; intros start H; [contradiction|].
  destruct H as [->|H]; [eauto|].
  destruct (IH (S start) H) as [k Hk]. eauto.
Qed.

(** X10. With a sort indexer that orders the frame, [main] writes a table
    whenever some input row has both coordinates and every such row has a
    finite key at line 19: at least one row, and no more rows than the
    input has rows with both coordinates. *)
Theorem main_succeeds_when_a_row_is_located (frames : list (list Row)) :
  indexer_ok sort_indexer ->
  Exists (fun r => has_coordinates r = true) (concat frames) ->
  Forall (fun r => has_coordinates r = true -> cluster_of r <> None)
         (concat frames) ->
  exists out,
    main frames = Ok out /\ out <> [] /\
    length out <= length (filter has_coordinates (concat frames)).
Proof.
  intros Hok Hex Hkeys. unfold main.
  assert (Hpos : filter has_coordinates (concat frames) <> []).
  { apply Exists_exists in Hex as [r [Hr Hc]]. intros E.
    assert (Hin : In r (filter has_coordinates (concat frames)))
      by (apply filter_In; auto).
    rewrite E in Hin. contradiction. }
  pose proof (located_count (concat frames) 0) as Hcount.
  assert (Hall : Forall (fun r => cluster_of r <> None)
                        (filter has_coordinates
                           (map (fun r => set_name (fillna (name r)) r)
                                (reset_index 0 (concat frames))))).
  { apply Forall_forall. intros r1 H1. apply filter_In in H1 as [H1 Hc].
    apply in_map_iff in H1 as [r2 [<- H2]].
    rewrite has_coordinates_set_name in Hc.
    assert (HP : Forall (fun r => has_coordinates r = true ->
                                  cluster_of (set_name (fillna (name r)) r)
                                  <> None)
                        (reset_index 0 (concat frames))).
    { apply Forall_reset_index.
      - intros k r Hr. rewrite has_coordinates_set_index.
        rewrite cluster_of_relabelled. intros Hc'.
        specialize (Hr Hc'). destruct r; exact Hr.
      - revert Hkeys. apply Forall_impl. intros r Hr Hc'.
        specialize (Hr Hc'). destruct r; exact Hr. }
    rewrite Forall_forall in HP. apply HP; assumption. }
  destruct (reset_index 0 (concat frames)) as [|r0 df0] eqn:E.
  - simpl in Hcount. destruct (filter has_coordinates (concat frames));
      [congruence|discriminate].
  - set (df := filter has_coordinates
                      (map (fun r => set_name (fillna (name r)) r)
                           (r0 :: df0))) in *.
    assert (Hdf : df <> []).
    { intros Ed. rewrite Ed in Hcount. simpl in Hcount.
      destruct (filter has_coordinates (concat frames));
        [congruence|discriminate]. }
    destruct (to_gdf_total df Hall) as [gdf Hgdf].
    destruct (geo_dedup_on_rows default_radius_m df gdf Hok Hdf Hgdf)
      as [out [Eo [Hn [Hl _]]]].
    exists out. split; [exact Eo|]. split; [exact Hn|].
    rewrite <- Hcount. exact Hl.
Qed.

(** Where a row that has both coordinates has no finite key at line 19
    (a latitude that is no latitude projects to infinity), [main] raises
    [IntCastingNaNError]. *)
Lemma main_raises_on_unprojectable_row (frames : list (list Row)) :
  Exists (fun r => has_coordinates r = true /\ cluster_of r = None)
         (concat frames) ->
  main frames = Err IntCastingNaNError.
Proof.
  intros Hex. apply Exists_exists in Hex as [r [Hr [Hc Hk]]].
  unfold main.
  destruct (reset_index_keeps (concat frames) r 0 Hr) as [k Hin].
  destruct (reset_index 0 (concat frames)) as [|r0 df0] eqn:E;
    [contradiction|].
  apply geo_dedup_raises. apply Exists_exists.
  exists (set_name (fillna (name (set_index k r))) (set_index k r)).
  split.
  - apply filter_In. split.
    + apply (in_map (fun r => set_name (fillna (name r)) r)). exact Hin.
    + rewrite has_coordinates_set_name, has_coordinates_set_index. exact Hc.
  - rewrite cluster_of_relabelled. exact Hk.
Qed.

(** *** What a merged row holds *)

Lemma first_usable_is_find (cand : list GRow) (col : prefer_col)
      (block : list nat) :
  forall rows,
    mapM (loc cand) block = Ok rows ->
    first_usable cand col block = Ok (first_usable_value col rows).
Proof.
  unfold first_usable_value.
  induction block as [|k block IH]; simpl; intros rows H.
  - inversion H. reflexivity.
  - destruct (loc cand k) as [g|]; simpl in *; [|discriminate].
    destruct (mapM (loc cand) block) as [rs|]; simpl in *; [|discriminate].
    inversion H; subst. simpl.
    destruct (usable (get col (row g))); [reflexivity|]. apply IH. reflexivity.
Qed.

Lemma backfill_exact (cand : list GRow) (block : list nat)
      (rows : list GRow) (merged : Row) (col : prefer_col) :
  mapM (loc cand) block = Ok rows ->
  exists merged',
    backfill cand block merged col = Ok merged' /\
    get col merged' = backfilled col rows merged /\
    (forall c, c <> col -> get c merged' = get c merged).
Proof.
  intros Hrows. unfold backfill, backfilled.
  rewrite (first_usable_is_find cand col block rows Hrows).
  destruct (columns col && lacking (get col merged)).
  - cbn [bind]. destruct (first_usable_value col rows) as [val|].
    + exists (set col val merged). split; [reflexivity|].
      split; [apply get_set_same|]. intros c Hc. apply get_set_other, Hc.
    + exists merged. auto.
  - exists merged. auto.
Qed.

Lemma backfilled_ext (col : prefer_col) (rows : list GRow) (m m' : Row) :
  get col m' = get col m -> backfilled col rows m' = backfilled col rows m.
Proof. unfold backfilled. intros ->. reflexivity. Qed.

Lemma backfill_all_exact (cand : list GRow) (block : list nat)
      (rows : list GRow) :
  mapM (loc cand) block = Ok rows ->
  forall cols, NoDup cols ->
  forall merged,
  exists filled,
    backfill_all cand block merged cols = Ok filled /\
    forall c, get c filled =
              if in_dec col_eq_dec c cols then backfilled c rows merged
              else get c merged.
Proof.
  intros Hrows. induction cols as [|col cols IH]; intros Hnd merged.
  - exists merged. split; [reflexivity|]. intros c. reflexivity.
  - apply NoDup_cons_iff in Hnd as [Hn Hnd].
    destruct (backfill_exact cand block rows merged col Hrows)
      as [m1 [E1 [V1 O1]]].
    destruct (IH Hnd m1) as [m2 [E2 V2]].
    exists m2. cbn [backfill_all]. rewrite E1. cbn [bind].
    split; [exact E2|].
    intros c. rewrite V2.
    destruct (in_dec col_eq_dec c (col :: cols)) as [Hin|Hout];
      destruct (in_dec col_eq_dec c cols) as [Hin'|Hout'].
    + apply backfilled_ext, O1. intros ->. contradiction.
    + destruct Hin as [<-|Hin]; [exact V1|contradiction].
    + exfalso. apply Hout. right. exact Hin'.
    + apply O1. intros ->. apply Hout. left. reflexivity.
Qed.

Lemma backfill_all_preserves {A} (f : Row -> A) (cand : list GRow)
      (block : list nat) (cols : list prefer_col) :
  (forall col v r, f (set col v r) = f r) ->
  forall merged filled,
    backfill_all cand block merged cols = Ok filled -> f filled = f merged.
Proof.
  intros Hf. induction cols as [|col cols IH]; cbn [backfill_all];
    intros merged filled H.
  - inversion H. reflexivity.
  - destruct (backfill cand block merged col) as [m1|] eqn:E; cbn [bind] in H;
      [|discriminate].
    rewrite (IH _ _ H).
    unfold backfill in E.
    destruct (columns col && lacking (get col merged)).
    + destruct (first_usable cand col block) as [[val|]|]; cbn [bind] in E;
        inversion E; subst; auto.
    + inversion E. reflexivity.
Qed.

Lemma prefer_cols_complete (c : prefer_col) : In c prefer_cols.
Proof. destruct c; simpl; tauto. Qed.

Lemma prefer_cols_NoDup : NoDup prefer_cols.
Proof.
  unfold prefer_cols. repeat constructor; simpl; intuition discriminate.
Qed.

Lemma merge_block_shape (cand : list GRow) (block : list nat)
      (rows : list GRow) :
  indexer_ok sort_indexer ->
  mapM (loc cand) block = Ok rows -> rows <> [] ->
  exists base filled secondary,
    select_base cand block = Ok base /\ In base rows /\
    backfill_all cand block (row base) prefer_cols = Ok filled /\
    (forall c, get c filled = backfilled c rows (row base)) /\
    merge_block cand block = Ok (set_source_secondary secondary filled).
Proof.
  intros Hok Hrows Hne.
  destruct (select_base_least _ _ _ Hok Hrows Hne) as [base [Hs [Hin _]]].
  destruct (backfill_all_exact cand block rows Hrows prefer_cols
                               prefer_cols_NoDup (row base))
    as [filled [Hf Hv]].
  destruct (provenance_total cand block rows filled Hrows) as [sec Hp].
  exists base, filled, sec. repeat split; auto.
  - intros c. rewrite Hv.
    destruct (in_dec col_eq_dec c prefer_cols) as [_|Hout]; [reflexivity|].
    exfalso. apply Hout, prefer_cols_complete.
  - unfold merge_block. rewrite Hs; cbn [bind]. rewrite Hf; cbn [bind].
    rewrite Hp. reflexivity.
Qed.

Lemma dedup_group_merged (radius_m : Q) (cand : list GRow)
      (P : list nat -> Row -> Prop) :
  indexer_ok sort_indexer ->
  (forall block rows base filled secondary,
      mapM (loc cand) block = Ok rows ->
      select_base cand block = Ok base -> In base rows ->
      backfill_all cand block (row base) prefer_cols = Ok filled ->
      (forall c, get c filled = backfilled c rows (row base)) ->
      P block (set_source_secondary secondary filled)) ->
  exists out,
    dedup_group radius_m cand = Ok out /\
    Forall2 P (blocks_of radius_m cand) out.
Proof.
  intros Hok HP. unfold dedup_group. rewrite iterrows_mapM.
  apply mapM_total. intros block Hb.
  destruct (block_rows _ _ _ Hb) as [rows [Hrows Hne]].
  destruct (merge_block_shape _ _ _ Hok Hrows Hne)
    as [base [filled [sec [Hs [Hin [Hf [Hv Hm]]]]]]].
  eexists. split; [exact Hm|]. eapply HP; eauto.
Qed.

Lemma same_identity_set_source_secondary (v : cell) (r : Row) :
  same_identity (set_source_secondary v r) r.
Proof. destruct r. repeat split. Qed.

(** X11. Apart from the backfilled columns and [source_secondary], a merged
    row is its base row: label, name, coordinates and source tag are the
    base's. *)
Theorem merged_row_is_its_base_elsewhere (radius_m : Q) (cand : list GRow) :
  indexer_ok sort_indexer ->
  exists out,
    dedup_group radius_m cand = Ok out /\
    Forall2
      (fun block merged =>
         exists base,
           select_base cand block = Ok base /\
           same_identity merged (row base))
      (blocks_of radius_m cand) out.
Proof.
  intros Hok. apply dedup_group_merged; [exact Hok|].
  intros block rows base filled sec _ Hs _ Hf _.
  exists base. split; [exact Hs|].
  destruct (same_identity_set_source_secondary sec filled)
    as [E1 [E2 [E3 [E4 E5]]]].
  unfold same_identity. rewrite E1, E2, E3, E4, E5.
  repeat split.
  - apply (backfill_all_preserves index _ _ _ index_set _ _ Hf).
  - apply (backfill_all_preserves name _ _ _
             (fun col v r => ltac:(destruct r, col; reflexivity)) _ _ Hf).
  - apply (backfill_all_preserves latitude _ _ _
             (fun col v r => ltac:(destruct r, col; reflexivity)) _ _ Hf).
  - apply (backfill_all_preserves longitude _ _ _
             (fun col v r => ltac:(destruct r, col; reflexivity)) _ _ Hf).
  - apply (backfill_all_preserves source_primary _ _ _
             (fun col v r => ltac:(destruct r, col; reflexivity)) _ _ Hf).
Qed.

(** X12. In a group whose row labels are distinct and with a sort indexer
    that orders the frame, every block yields a merged row, and this is
    the value of each backfillable column in it: where the
    table has the column and line 44 counts the base value as missing (it
    is NaN, or falsy as the empty string, zero and [False] are, or prints
    as whitespace only), the first usable value among the rows of the
    block, in block order, and the base value when there is none; the
    base value otherwise. *)
Theorem merged_values_are_backfilled (radius_m : Q) (cand : list GRow) :
  indexer_ok sort_indexer ->
  NoDup (map label cand) ->
  exists out,
    dedup_group radius_m cand = Ok out /\
    Forall2
      (fun block merged =>
         exists rows base,
           mapM (loc cand) block = Ok rows /\
           select_base cand block = Ok base /\
           forall col, get col merged = backfilled col rows (row base))
      (blocks_of radius_m cand) out.
Proof.
  intros Hok _. apply dedup_group_merged; [exact Hok|].
  intros block rows base filled sec Hrows Hs _ _ Hv.
  exists rows, base. split; [exact Hrows|]. split; [exact Hs|].
  intros col. rewrite get_set_source_secondary. apply Hv.
Qed.

(** X13. Backfilling invents nothing and copies no blank: a merged value
    that differs from the base value is a usable value (present, with a
    non-whitespace character) held by a row of the block, and the table
    has that column. *)
Theorem backfilled_values_come_from_members (radius_m : Q)
        (cand : list GRow) :
  indexer_ok sort_indexer ->
  exists out,
    dedup_group radius_m cand = Ok out /\
    Forall2
      (fun block merged =>
         exists rows base,
           mapM (loc cand) block = Ok rows /\
           select_base cand block = Ok base /\
           forall col, get col merged <> get col (row base) ->
                       columns col = true /\
                       usable (get col merged) = true /\
                       exists m, In m rows /\
                                 get col merged = get col (row m))
      (blocks_of radius_m cand) out.
Proof.
  intros Hok. apply dedup_group_merged; [exact Hok|].
  intros block rows base filled sec Hrows Hs _ _ Hv.
  exists rows, base. split; [exact Hrows|]. split; [exact Hs|].
  intros col. rewrite get_set_source_secondary, Hv. unfold backfilled.
  destruct (columns col); simpl; [|congruence].
  destruct (lacking (get col (row base))); [|congruence].
  unfold first_usable_value.
  destruct (find usable (map (fun g => get col (row g)) rows)) as [val|] eqn:E;
    [|congruence].
  intros _. apply find_some in E as [Hin Hu].
  split; [reflexivity|]. split; [exact Hu|].
  apply in_map_iff in Hin as [m [Em Hm]]. eauto.
Qed.

(** *** A frame of one row *)

Lemma backfill_all_alone (g : GRow) (cols : list prefer_col) :
  backfill_all [g] [label g] (row g) cols = Ok (row g).
Proof.
  induction cols as [|col cols IH]; [reflexivity|].
  cbn [backfill_all].
  assert (E : backfill [g] [label g] (row g) col = Ok (row g)).
  { unfold backfill.
    destruct (columns col && lacking (get col (row g))) eqn:C;
      [|reflexivity].
    cbn [first_usable loc]. rewrite Nat.eqb_refl. cbn [bind].
    destruct (usable (get col (row g))); cbn [bind first_usable];
      [rewrite set_get|]; reflexivity. }
  rewrite E. cbn [bind]. exact IH.
Qed.

Lemma merge_block_alone (g : GRow) :
  indexer_ok sort_indexer ->
  merge_block [g] [label g] = Ok (set_source_secondary (Str []) (row g)).
Proof.
  intros Hok. unfold merge_block, select_base.
  cbn [mapM loc]. rewrite Nat.eqb_refl. cbn [bind].
  unfold sort_values. cbn [map].
  destruct (Hok [source_primary (row g)]) as [Hp _]. simpl in Hp.
  apply Permutation_sym, Permutation_length_1_inv in Hp. rewrite Hp.
  cbn [mapM nth_error bind iloc0].
  rewrite backfill_all_alone. cbn [bind].
  unfold provenance. cbn [filter].
  change (index (row g)) with (label g). rewrite Nat.eqb_refl.
  reflexivity.
Qed.

(** X14. With a sort indexer that orders the frame, a frame of a single row
    that has a finite key at line 19 comes back as that row, relabelled 0
    and with the empty string as its [source_secondary]; no other column
    changes. A single row without such a key raises
    [IntCastingNaNError]. *)
Theorem geo_dedup_of_one_row (radius_m : Q) (r : Row) :
  indexer_ok sort_indexer ->
  (cluster_of r <> None ->
   _geo_dedup radius_m [r]
   = Ok [set_index 0 (set_source_secondary (Str []) r)]) /\
  (cluster_of r = None ->
   _geo_dedup radius_m [r] = Err IntCastingNaNError).
Proof.
  intros Hok. split;
    [|intros Hk; apply geo_dedup_raises; left; exact Hk].
  intros Hk. unfold _geo_dedup, to_gdf. cbn [mapM].
  unfold to_grow. unfold cluster_of in Hk.
  destruct (cluster_key (points_from_xy (longitude r) (latitude r)))
    as [key|]; [|congruence].
  cbn [bind].
  set (g := mkGRow r (points_from_xy (longitude r) (latitude r)) key).
  assert (Eg : groupby [g] = [[g]]).
  { unfold groupby, group_keys. cbn [map fold_right insert_key filter].
    rewrite str_eqb_refl. reflexivity. }
  rewrite Eg. cbn [mapM].
  assert (Ed : dedup_group radius_m [g]
               = Ok [set_source_secondary (Str []) (row g)]).
  { unfold dedup_group. cbn [iterrows mem existsb].
    assert (Eb : build_block radius_m [g] [] g = [label g]).
    { unfold build_block. cbn [filter].
      unfold appended at 1. rewrite Nat.eqb_refl. reflexivity. }
    rewrite Eb, (merge_block_alone g Hok). reflexivity. }
  rewrite Ed. reflexivity.
Qed.

(** *** Rows that match nothing *)

Lemma blocks_from_unmatched (radius_m : Q) (cand : list GRow) :
  NoDup (map label cand) ->
  (forall i j, In i cand -> In j cand -> label j <> label i ->
               Qle_bool (distance (geom i) (geom j)) radius_m = true ->
               name_match (row i) (row j) = false) ->
  forall todo pre used,
    cand = pre ++ todo ->
    (forall k, In k used -> In k (map label pre)) ->
    blocks_from radius_m cand todo used = map (fun g => [label g]) todo.
Proof.
  intros Hnd Hno. induction todo as [|i todo IH]; intros pre used Hc Hu.
  - reflexivity.
  - rewrite blocks_from_cons.
    assert (Hi : In i cand) by (rewrite Hc; apply in_or_app; right; left; reflexivity).
    assert (Hfresh : ~ In (label i) (map label pre)).
    { rewrite Hc, map_app in Hnd. simpl in Hnd.
      apply NoDup_remove_2 in Hnd. intros H. apply Hnd, in_or_app. auto. }
    assert (M : mem (label i) used = false)
      by (apply mem_not_In; intros H; apply Hfresh, Hu, H).
    rewrite M.
    assert (Eb : build_block radius_m cand used i = [label i]).
    { unfold build_block. f_equal.
      rewrite filter_none; [reflexivity|].
      apply Forall_forall. intros j Hj.
      destruct (appended radius_m used i j) eqn:Ea; [|reflexivity].
      apply appended_true in Ea as [Hne [_ [Hd Hn]]].
      rewrite (Hno i j Hi Hj Hne Hd) in Hn. discriminate. }
    rewrite Eb. cbn [map]. f_equal.
    apply (IH (pre ++ [i])).
    + rewrite <- app_assoc. exact Hc.
    + intros k [<-|Hk]; rewrite map_app; apply in_or_app.
      * right. left. reflexivity.
      * left. apply Hu, Hk.
Qed.

(** X15. In a group with distinct row labels in which no two rows are both
    within the radius of each other and matching in name, nothing is
    merged: every row is a block of its own, in frame order. *)
Theorem unmatched_rows_stay_apart (radius_m : Q) (cand : list GRow) :
  NoDup (map label cand) ->
  (forall i j, In i cand -> In j cand -> label j <> label i ->
               Qle_bool (distance (geom i) (geom j)) radius_m = true ->
               name_match (row i) (row j) = false) ->
  blocks_of radius_m cand = map (fun g => [label g]) cand.
Proof.
  intros Hnd Hno.
  apply (blocks_from_unmatched radius_m cand Hnd Hno cand [] [] eq_refl).
  intros k [].
Qed.

(** *** Where the rows written come from, column by column *)

Lemma merge_block_based_on (cand : list GRow) (block : list nat)
      (merged : Row) :
  merge_block cand block = Ok merged ->
  exists base, In base cand /\ based_on merged (row base).
Proof.
  unfold merge_block. intros H.
  destruct (select_base cand block) as [base|] eqn:Eb; cbn [bind] in H;
    [|discriminate].
  destruct (backfill_all cand block (row base) prefer_cols) as [filled|]
    eqn:Ef; cbn [bind] in H; [|discriminate].
  destruct (provenance cand block filled) as [sec|]; cbn [bind] in H;
    inversion H; subst.
  exists base. split; [eapply select_base_member; eauto|].
  destruct (same_identity_set_source_secondary sec filled)
    as [_ [E2 [E3 [E4 E5]]]].
  unfold based_on. rewrite E2, E3, E4, E5. repeat split.
  - apply (backfill_all_preserves name _ _ _
             (fun col v r => ltac:(destruct r, col; reflexivity)) _ _ Ef).
  - apply (backfill_all_preserves latitude _ _ _
             (fun col v r => ltac:(destruct r, col; reflexivity)) _ _ Ef).
  - apply (backfill_all_preserves longitude _ _ _
             (fun col v r => ltac:(destruct r, col; reflexivity)) _ _ Ef).
  - apply (backfill_all_preserves source_primary _ _ _
             (fun col v r => ltac:(destruct r, col; reflexivity)) _ _ Ef).
Qed.

Lemma dedup_group_based_on (radius_m : Q) (cand : list GRow)
      (out : list Row) :
  dedup_group radius_m cand = Ok out ->
  Forall (fun o => exists base, In base cand /\ based_on o (row base)) out.
Proof.
  unfold dedup_group. rewrite iterrows_mapM. intros H.
  apply mapM_Ok in H. induction H; constructor; auto.
  eapply merge_block_based_on; eauto.
Qed.

Lemma reset_index_In (rows : list Row) (r' : Row) :
  forall start,
    In r' (reset_index start rows) ->
    exists r k, In r rows /\ r' = set_index k r.
Proof.
  induction rows as [|r rows IH]; simpl; intros start H; [contradiction|].
  destruct H as [<-|H]; [eauto|].
  destruct (IH _ H) as [r1 [k [H1 H2]]]. eauto.
Qed.

(** X16. Every row [main] writes is based on an input row that has both
    coordinates: it carries that row's coordinates and source tag, and its
    name, with the empty string where the input name is missing. *)
Theorem main_rows_are_based_on_input_rows (frames : list (list Row))
        (out : list Row) :
  main frames = Ok out ->
  Forall (fun o => exists r,
                     In r (concat frames) /\ has_coordinates r = true /\
                     name o = fillna (name r) /\
                     latitude o = latitude r /\ longitude o = longitude r /\
                     source_primary o = source_primary r) out.
Proof.
  unfold main.
  destruct (reset_index 0 (concat frames)) as [|r0 df0] eqn:E;
    [intros H; inversion H; constructor|].
  rewrite <- E. clear E r0 df0.
  set (df := filter has_coordinates
                    (map (fun r => set_name (fillna (name r)) r)
                         (reset_index 0 (concat frames)))).
  unfold _geo_dedup. intros H.
  destruct (to_gdf df) as [gdf|] eqn:Egdf; cbn [bind] in H; [|discriminate].
  destruct (mapM (dedup_group default_radius_m) (groupby gdf))
    as [groups|] eqn:Eg; cbn [bind] in H; [|discriminate].
  set (P := fun o : Row => exists r,
                 In r (concat frames) /\ has_coordinates r = true /\
                 name o = fillna (name r) /\
                 latitude o = latitude r /\ longitude o = longitude r /\
                 source_primary o = source_primary r).
  assert (Hdf : forall r1, In r1 df -> P r1).
  { intros r1 H1. apply filter_In in H1 as [H1 Hc].
    apply in_map_iff in H1 as [r2 [<- H2]].
    apply reset_index_In in H2 as [r [k [Hr ->]]].
    rewrite has_coordinates_set_name, has_coordinates_set_index in Hc.
    exists r. split; [exact Hr|]. split; [exact Hc|].
    destruct r; repeat split. }
  assert (Hall : Forall P (concat groups)).
  { clear H. apply mapM_Ok in Eg.
    assert (Hsrc : forall grp, In grp (groupby gdf) ->
                     forall g, In g grp -> P (row g)).
    { intros grp Hg g Hin.
      destruct (groupby_groups _ _ Hg) as [_ [Hincl _]].
      apply Hincl in Hin. apply Hdf.
      rewrite <- (to_gdf_rows df gdf Egdf). apply in_map, Hin. }
    revert Hsrc Eg. generalize (groupby gdf). intros G Hsrc Eg.
    revert Hsrc.
    induction Eg as [|grp rows grps rest Hd _ IH]; intros Hsrc; simpl.
    - constructor.
    - apply Forall_app. split.
      + apply dedup_group_based_on in Hd. revert Hd. apply Forall_impl.
        intros o [base [Hb [E1 [E2 [E3 E4]]]]].
        destruct (Hsrc grp (or_introl eq_refl) base Hb)
          as [r [Hr [Hc [F1 [F2 [F3 F4]]]]]].
        exists r. repeat split; congruence.
      + apply IH. intros g Hg. apply Hsrc. right; exact Hg. }
  destruct (concat groups) as [|o rest]; [discriminate|].
  inversion H; subst.
  change (Forall P (reset_index 0 (o :: rest))).
  apply Forall_reset_index; auto.
  intros k r [r1 [H1 [H2 [H3 [H4 [H5 H6]]]]]].
  exists r1. destruct r; simpl in *. repeat split; assumption.
Qed.

End Model.

(** ** The sample instances meet what the model asks of them *)

Lemma tag_leb_total (a b : cell) : tag_leb a b = false -> tag_leb b a = true.
Proof.
  destruct a, b; simpl; try congruence. apply str_leb_total.
Qed.

Lemma tag_leb_trans (a b c : cell) :
  tag_leb a b = true -> tag_leb b c = true -> tag_leb a c = true.
Proof.
  destruct a, b, c; simpl; try congruence. apply str_leb_trans.
Qed.

Lemma insert_idx_perm (keys : list cell) (i : nat) (l : list nat) :
  Permutation (insert_idx keys i l) (i :: l).
Proof.
  induction l as [|j l IH]; simpl; auto.
  destruct (tag_leb (key_at keys i) (key_at keys j)); auto.
  rewrite IH. apply perm_swap.
Qed.

Lemma insert_idx_sorted (keys : list cell) (i : nat) (l : list nat) :
  StronglySorted (fun a b => tag_leb (key_at keys a) (key_at keys b) = true) l ->
  StronglySorted (fun a b => tag_leb (key_at keys a) (key_at keys b) = true)
                 (insert_idx keys i l).
Proof.
  induction 1 as [|j l Hs IH Hj]; simpl.
  - repeat constructor.
  - destruct (tag_leb (key_at keys i) (key_at keys j)) eqn:E.
    + constructor; [constructor; assumption|].
      constructor; [exact E|].
      revert Hj. apply Forall_impl. intros a. apply tag_leb_trans, E.
    + constructor; [exact IH|].
      apply (Permutation_Forall (Permutation_sym (insert_idx_perm keys i l))).
      constructor; [apply tag_leb_total, E | exact Hj].
Qed.

Lemma stable_indexer_ok : indexer_ok stable_indexer.
Proof.
  intros keys. unfold stable_indexer.
  induction (seq 0 (length keys)) as [|i l [IHp IHs]]; simpl; split.
  - constructor.
  - constructor.
  - rewrite insert_idx_perm. constructor. exact IHp.
  - apply insert_idx_sorted, IHs.
Qed.

(** With the sample tables, which are CPython's on ASCII, every ASCII
    string is settled by one normalization. *)
Lemma ascii_is_lower_stable (s : str) :
  Forall (fun c => (c < 128)%N) s ->
  lower_stable ucd_isalnum ucd_isspace ucd_lower s = true.
Proof.
  assert (Hall : forallb
                   (fun c => implb (kept ucd_isalnum ucd_isspace c)
                               (forallb (settled ucd_isalnum ucd_isspace
                                                 ucd_lower)
                                        (ucd_lower c)))
                   (map N.of_nat (seq 0 128)) = true)
    by (vm_compute; reflexivity).
  rewrite forallb_forall in Hall.
  intros H. unfold lower_stable. apply forallb_forall.
  intros c Hc. rewrite Forall_forall in H. specialize (H c Hc).
  apply Hall. apply in_map_iff. exists (N.to_nat c).
  split; [apply N2Nat.id | apply in_seq; lia].
Qed.

(** ** The claims at the sample tables *)

Local Abbreviation norm := (_norm_name ucd_isalnum ucd_isspace ucd_lower).
Local Abbreviation gdf_of df :=
  (rows_of (to_gdf grid_points_from_xy grid_cluster_key df)).
Local Abbreviation radius := default_radius_m.

(** C1 (defect). In [punctuation_table] the names ["!!!"] and ["???"] are
    truthy and both normalize to the empty string, so line 34 appends the
    second row to the block of the first, whatever the scorer returns;
    with a scorer that gives two empty strings less than 80, as rapidfuzz
    does, the condition of the specification's step 3 is false there. *)
Theorem punctuation_names_join_against_step3 :
  forall token_set_ratio : str -> str -> Q,
    Qle_bool 80 (token_set_ratio [] []) = false ->
    exists i j,
      gdf_of punctuation_table = [i; j] /\
      norm (name (row i)) = [] /\ norm (name (row j)) = [] /\
      appended ucd_isalnum ucd_isspace ucd_lower token_set_ratio
               grid_distance radius [] i j = true /\
      spec_step3 ucd_isalnum ucd_isspace ucd_lower token_set_ratio
                 grid_distance radius i j = false /\
      In (label j)
         (build_block ucd_isalnum ucd_isspace ucd_lower token_set_ratio
                      grid_distance radius (gdf_of punctuation_table) [] i).
Proof.
  intros tsr Hlow.
  pose (i := mkGRow (sample_row 0 (Str (lit "!!!")) 153 (-27)
                                (Str (lit "osm")) VNaN)
                    (Some (153, -27)%Z) (lit "150:-30")).
  pose (j := mkGRow (sample_row 1 (Str (lit "???")) 153 (-27)
                                (Str (lit "brand")) VNaN)
                    (Some (153, -27)%Z) (lit "150:-30")).
  assert (Happ : appended ucd_isalnum ucd_isspace ucd_lower tsr
                          grid_distance radius [] i j = true).
  { apply appended_true. repeat split.
    - discriminate.
    - intros [].
    - apply name_match_same_normal_form; reflexivity. }
  exists i, j. repeat split; try reflexivity; try exact Happ.
  - unfold spec_step3.
    change (norm (name (row i))) with (@nil char).
    change (norm (name (row j))) with (@nil char).
    rewrite Hlow. reflexivity.
  - apply build_block_members. right. exists j.
    repeat split; [right; left; reflexivity | exact Happ].
Qed.

(** The same at the sample scorer, which gives two empty strings 0. *)
Lemma punctuation_names_join_against_step3_witness :
  Qle_bool 80 (exact_ratio [] []) = false /\
  exists i j,
    gdf_of punctuation_table = [i; j] /\
    norm (name (row i)) = [] /\ norm (name (row j)) = [] /\
    appended ucd_isalnum ucd_isspace ucd_lower exact_ratio
             grid_distance radius [] i j = true /\
    spec_step3 ucd_isalnum ucd_isspace ucd_lower exact_ratio
               grid_distance radius i j = false /\
    In (label j)
       (build_block ucd_isalnum ucd_isspace ucd_lower exact_ratio
                    grid_distance radius (gdf_of punctuation_table) [] i).
Proof.
  split; [reflexivity|].
  apply (punctuation_names_join_against_step3 exact_ratio). reflexivity.
Defined.

(** C5 (defect). The two rows of [symbol_frames] lie at one place, their
    names ["***"] and ["(-)"] normalize to the empty string and the scorer
    gives them 0, yet [main] writes one merged row for the two: the
    equality test of line 34 accepts them because the raw names are
    truthy. *)
Theorem symbol_named_rows_are_merged :
  norm (Str (lit "***")) = [] /\
  norm (Str (lit "(-)")) = [] /\
  exact_ratio [] [] = 0%Q /\
  exists merged,
    main ucd_isalnum ucd_isspace ucd_lower exact_ratio stable_indexer
         grid_points_from_xy grid_distance grid_cluster_key all_columns
         whole_float_repr symbol_frames = Ok [merged] /\
    source_primary merged = Str (lit "brand") /\
    source_secondary merged = Str (lit "osm").
Proof.
  repeat split; try reflexivity.
  eexists. split; [vm_compute; reflexivity|]. split; reflexivity.
Qed.

Local Abbreviation sample_blocks :=
  (blocks_of ucd_isalnum ucd_isspace ucd_lower exact_ratio grid_distance
             radius).
Local Abbreviation sample_dedup :=
  (dedup_group ucd_isalnum ucd_isspace ucd_lower exact_ratio stable_indexer
               grid_distance all_columns whole_float_repr radius).
Local Abbreviation sample_main :=
  (main ucd_isalnum ucd_isspace ucd_lower exact_ratio stable_indexer
        grid_points_from_xy grid_distance grid_cluster_key all_columns
        whole_float_repr).


(** In [sunny_table] the base of the block of rows 0 and 1 is row 1,
    tagged ["brand"], ahead of row 0, tagged ["osm"]; in
    [untagged_member_table] it is the tagged row, ahead of the row
    without a tag. *)
Example base_of_sample_blocks :
  (exists base,
     select_base stable_indexer (gdf_of sunny_table) [0; 1] = Ok base /\
     label base = 1 /\ source_primary (row base) = Str (lit "brand")) /\
  (exists base,
     sample_blocks (gdf_of untagged_member_table) = [[0; 1]] /\
     select_base stable_indexer (gdf_of untagged_member_table) [0; 1]
     = Ok base /\
     label base = 0 /\ source_primary (row base) = Str (lit "osm")).
Proof.
  split; eexists; repeat split; reflexivity.
Qed.

(** The provenance of the merged row of [untagged_member_table]. *)
Lemma untagged_members_are_listed_as_nan_witness :
  indexer_ok stable_indexer /\
  NoDup (map (@label _) (gdf_of untagged_member_table)) /\
  exists out,
    sample_dedup (gdf_of untagged_member_table) = Ok out /\
    Forall2
      (fun block merged =>
         exists rows base r1 r2 entries,
           mapM (loc (gdf_of untagged_member_table)) block = Ok rows /\
           select_base stable_indexer (gdf_of untagged_member_table) block
           = Ok base /\
           rows = r1 ++ base :: r2 /\
           Forall2 (@listed_as _) (r1 ++ r2) entries /\
           source_secondary merged = Str (semicolon_joined entries))
      (sample_blocks (gdf_of untagged_member_table)) out.
Proof.
  assert (Hnd : NoDup (map (@label _) (gdf_of untagged_member_table))).
  { simpl. repeat constructor; simpl; intuition discriminate. }
  split; [exact stable_indexer_ok|]. split; [exact Hnd|].
  exact (untagged_members_are_listed_as_nan ucd_isalnum ucd_isspace
           ucd_lower exact_ratio stable_indexer grid_point grid_distance
           all_columns whole_float_repr radius
           (gdf_of untagged_member_table) stable_indexer_ok Hnd).
Defined.

(** The two rows of [untagged_member_table] read from two tables: [main]
    writes one row, based on the row tagged ["osm"], whose provenance is
    the text ["nan"] although no row has that tag. *)
Example untagged_member_through_main :
  exists merged,
    sample_main (map (fun r => [r]) untagged_member_table) = Ok [merged] /\
    source_primary merged = Str (lit "osm") /\
    source_secondary merged = Str (lit "nan") /\
    Forall (fun r => source_primary r <> Str (lit "nan"))
           untagged_member_table.
Proof.
  eexists. split; [vm_compute; reflexivity|].
  repeat split. repeat constructor; discriminate.
Qed.

(** The provenance where every member has a tag: in [sunny_table] the
    two merged rows have ["osm"] and the empty string; in
    [repeated_tag_table] the base is the row tagged ["brand"] and the
    provenance lists ["osm"] twice, in block order. *)
Example provenance_of_tagged_members :
  (exists a b,
     sample_dedup (gdf_of sunny_table) = Ok [a; b] /\
     source_secondary a = Str (lit "osm") /\
     source_secondary b = Str []) /\
  (exists a,
     sample_blocks (gdf_of repeated_tag_table) = [[0; 1; 2]] /\
     sample_dedup (gdf_of repeated_tag_table) = Ok [a] /\
     source_primary a = Str (lit "brand") /\
     source_secondary a = Str (lit "osm;osm")).
Proof.
  split.
  - eexists. eexists. split; [vm_compute; reflexivity|].
    split; reflexivity.
  - eexists. split; [reflexivity|]. split; [vm_compute; reflexivity|].
    split; reflexivity.
Qed.

(** C4 (counterexample). In [blank_phone_table] the base row holds the
    one-character text [" "] as its phone, a present and non-empty value;
    the merged row holds the other member's phone instead. *)
Lemma blank_base_phone_is_replaced :
  exists base merged,
    select_base stable_indexer (gdf_of blank_phone_table) [0; 1] = Ok base /\
    sample_blocks (gdf_of blank_phone_table) = [[0; 1]] /\
    sample_dedup (gdf_of blank_phone_table) = Ok [merged] /\
    get phone (row base) = VStr (lit " ") /\
    get phone merged = VStr (lit "0400 111 222") /\
    get phone merged <> get phone (row base).
Proof.
  eexists. eexists. split; [reflexivity|]. split; [reflexivity|].
  split; [vm_compute; reflexivity|].
  repeat split. discriminate.
Qed.

(** The base values kept in the merged rows of [sunny_table]. *)
Lemma merged_keeps_non_blank_base_values_witness :
  indexer_ok stable_indexer /\
  NoDup (map (@label _) (gdf_of sunny_table)) /\
  exists out,
    sample_dedup (gdf_of sunny_table) = Ok out /\
    Forall2
      (fun block merged =>
         exists base,
           select_base stable_indexer (gdf_of sunny_table) block = Ok base /\
           (forall col,
              holds ucd_isspace whole_float_repr (get col (row base)) = true ->
              get col merged = get col (row base)) /\
           (forall col s, get col (row base) = VStr s ->
                          get col merged <> VStr s ->
                          strip ucd_isspace s = []) /\
           (forall col,
              get col merged <> get col (row base) ->
              lacking ucd_isspace whole_float_repr (get col (row base))
              = true))
      (sample_blocks (gdf_of sunny_table)) out.
Proof.
  assert (Hnd : NoDup (map (@label _) (gdf_of sunny_table))).
  { simpl. repeat constructor; simpl; intuition discriminate. }
  split; [exact stable_indexer_ok|]. split; [exact Hnd|].
  exact (merged_keeps_non_blank_base_values ucd_isalnum ucd_isspace
           ucd_lower exact_ratio stable_indexer grid_point grid_distance
           all_columns whole_float_repr radius (gdf_of sunny_table)
           stable_indexer_ok Hnd).
Defined.

(** In [sunny_table] the base of the first block holds a phone, and the
    merged row keeps it. *)
Example held_phone_is_kept :
  exists base a b,
    select_base stable_indexer (gdf_of sunny_table) [0; 1] = Ok base /\
    sample_dedup (gdf_of sunny_table) = Ok [a; b] /\
    holds ucd_isspace whole_float_repr (get phone (row base)) = true /\
    get phone (row base) = VStr (lit "0400 111 222") /\
    get phone a = VStr (lit "0400 111 222").
Proof.
  eexists. eexists. eexists. split; [reflexivity|].
  split; [vm_compute; reflexivity|]. repeat split.
Qed.

(** The two rows of [zero_phone_table] read from two tables, the phone
    column of the second typed as numbers: the base row, tagged
    ["brand"], holds the number 0 as its phone; line 44 counts it as
    missing, as [0 or ""] is [""], and the merged row holds the other
    member's phone. *)
Example zero_base_phone_is_replaced :
  lacking ucd_isspace whole_float_repr (VInt 0) = true /\
  usable ucd_isspace whole_float_repr (VInt 0) = true /\
  exists merged,
    sample_main (map (fun r => [r]) zero_phone_table) = Ok [merged] /\
    source_primary merged = Str (lit "brand") /\
    get phone merged = VStr (lit "0400 111 222").
Proof.
  split; [reflexivity|]. split; [reflexivity|].
  eexists. split; [vm_compute; reflexivity|]. split; reflexivity.
Qed.

(** Which values hold, with the sample tables: a phone number as text or
    as a number does; a blank text, the empty string, zero as [int] or
    [float], [False] and the missing value do not. *)
Example values_that_hold :
  map (holds ucd_isspace whole_float_repr)
      [ VStr (lit "0400 111 222"); VInt 400111222; VFloat (inject_Z 7);
        VBool true; VStr (lit " "); VStr []; VInt 0; VFloat 0; VBool false;
        VNaN ]
  = [ true; true; true; true; false; false; false; false; false; false ] /\
  map (lacking ucd_isspace whole_float_repr)
      [ VStr (lit "0400 111 222"); VInt 400111222; VFloat (inject_Z 7);
        VBool true; VStr (lit " "); VStr []; VInt 0; VFloat 0; VBool false;
        VNaN ]
  = [ false; false; false; false; true; true; true; true; true; true ].
Proof. split; reflexivity. Qed.

(** The blocks of [sunny_table]. *)
Lemma blocks_partition_the_bucket_witness :
  NoDup (map (@label _) (gdf_of sunny_table)) /\
  (forall k, In k (map (@label _) (gdf_of sunny_table)) <->
             exists block,
               In block (sample_blocks (gdf_of sunny_table)) /\ In k block)
  /\ NoDup (concat (sample_blocks (gdf_of sunny_table)))
  /\ ForallOrdPairs (fun b1 b2 => forall k, In k b1 -> ~ In k b2)
                    (sample_blocks (gdf_of sunny_table)).
Proof.
  assert (Hnd : NoDup (map (@label _) (gdf_of sunny_table))).
  { simpl. repeat constructor; simpl; intuition discriminate. }
  split; [exact Hnd|].
  exact (blocks_partition_the_bucket ucd_isalnum ucd_isspace ucd_lower
           exact_ratio grid_point grid_distance radius (gdf_of sunny_table)
           Hnd).
Defined.

(** The sample tables are CPython's at U+0130, U+0069 and U+0307. *)
Lemma norm_name_not_idempotent_on_dotted_capital_i_witness :
  ucd_isalnum 304%N = true /\ ucd_lower 304%N = [105%N; 775%N] /\
  ucd_isalnum 105%N = true /\ ucd_isspace 105%N = false /\
  ucd_lower 105%N = [105%N] /\
  ucd_isalnum 775%N = false /\ ucd_isspace 775%N = false /\
  norm (Str dotted_capital_i) = [105%N; 775%N] /\
  kept ucd_isalnum ucd_isspace 775%N = false /\
  norm (Str (norm (Str dotted_capital_i))) = small_i /\
  norm (Str (norm (Str dotted_capital_i))) <> norm (Str dotted_capital_i).
Proof.
  do 7 (split; [reflexivity|]).
  apply (norm_name_not_idempotent_on_dotted_capital_i ucd_isalnum
           ucd_isspace ucd_lower); reflexivity.
Defined.

(** An ASCII name with punctuation and outer spaces is settled by one
    normalization. *)
Example ascii_name_is_settled :
  lower_stable_cell ucd_isalnum ucd_isspace ucd_lower
                    (Str (lit "  Sunny, Caravan Pk! ")) = true /\
  norm (Str (norm (Str (lit "  Sunny, Caravan Pk! ")))) =
  norm (Str (lit "  Sunny, Caravan Pk! ")).
Proof.
  split; [reflexivity|].
  apply (norm_name_fixed ucd_isalnum ucd_isspace ucd_lower
           (Str (lit "  Sunny, Caravan Pk! "))).
  reflexivity.
Qed.

(** With the sample tables and the indel similarity, which on these
    strings of one token is what rapidfuzz computes: the raw names score
    200/3 and the normalized names 100. *)
Lemma fuzzy_changes_after_prenormalization_witness :
  ucd_isalnum 304%N = true /\ ucd_lower 304%N = [105%N; 775%N] /\
  ucd_isalnum 105%N = true /\ ucd_isspace 105%N = false /\
  ucd_lower 105%N = [105%N] /\
  ucd_isalnum 775%N = false /\ ucd_isspace 775%N = false /\
  (indel_ratio [105%N; 775%N] small_i == 200 # 3)%Q /\
  (indel_ratio small_i small_i == 100)%Q /\
  ~ (indel_ratio [105%N; 775%N] small_i == indel_ratio small_i small_i)%Q /\
  _fuzzy ucd_isalnum ucd_isspace ucd_lower indel_ratio
         (Str dotted_capital_i) (Str small_i)
  = indel_ratio [105%N; 775%N] small_i /\
  _fuzzy ucd_isalnum ucd_isspace ucd_lower indel_ratio
         (Str (norm (Str dotted_capital_i))) (Str (norm (Str small_i)))
  = indel_ratio small_i small_i /\
  ~ (_fuzzy ucd_isalnum ucd_isspace ucd_lower indel_ratio
            (Str dotted_capital_i) (Str small_i)
     == _fuzzy ucd_isalnum ucd_isspace ucd_lower indel_ratio
               (Str (norm (Str dotted_capital_i)))
               (Str (norm (Str small_i))))%Q.
Proof.
  assert (Hgap : ~ (indel_ratio [105%N; 775%N] small_i
                    == indel_ratio small_i small_i)%Q)
    by (intros H; vm_compute in H; discriminate).
  do 7 (split; [reflexivity|]).
  split; [vm_compute; reflexivity|]. split; [vm_compute; reflexivity|].
  split; [exact Hgap|].
  apply (fuzzy_changes_after_prenormalization ucd_isalnum ucd_isspace
           ucd_lower indel_ratio); try reflexivity.
  exact Hgap.
Defined.

(** An ASCII name against a missing one score alike raw and normalized. *)
Example ascii_names_score_alike :
  _fuzzy ucd_isalnum ucd_isspace ucd_lower exact_ratio
         (Str (lit "Sunny Caravan Park")) NaN =
  _fuzzy ucd_isalnum ucd_isspace ucd_lower exact_ratio
         (Str (norm (Str (lit "Sunny Caravan Park")))) (Str (norm NaN)).
Proof.
  apply (fuzzy_of_settled_names ucd_isalnum ucd_isspace ucd_lower
           exact_ratio (Str (lit "Sunny Caravan Park")) NaN);
    reflexivity.
Qed.

(** One table whose only row has no latitude. *)
Lemma main_fails_when_no_row_is_located_witness :
  concat [[row_without_latitude]] <> [] /\
  Forall (fun r => has_coordinates r = false)
         (concat [[row_without_latitude]]) /\
  main ucd_isalnum ucd_isspace ucd_lower exact_ratio stable_indexer
       grid_points_from_xy grid_distance grid_cluster_key all_columns
       whole_float_repr [[row_without_latitude]] = Err KeyError.
Proof.
  assert (Hne : concat [[row_without_latitude]] <> []) by discriminate.
  assert (Hall : Forall (fun r => has_coordinates r = false)
                        (concat [[row_without_latitude]]))
    by (repeat constructor).
  split; [exact Hne|]. split; [exact Hall|].
  exact (main_fails_when_no_row_is_located ucd_isalnum ucd_isspace
           ucd_lower exact_ratio stable_indexer grid_point
           grid_points_from_xy grid_distance grid_cluster_key all_columns
           whole_float_repr [[row_without_latitude]] Hne Hall).
Defined.

(** ** Scenarios of the specification, run on the model *)

(** No table, and two tables without rows: the guard of line 62 answers,
    the engine is not called. *)
Example scenario_no_input :
  sample_main [] = Ok [] /\ sample_main [[]; []] = Ok [].
Proof. split; reflexivity. Qed.

(** Scenario B: identical names farther apart than the radius stay two
    rows. *)
Example scenario_far_apart :
  Qle_bool (grid_distance (grid_points_from_xy (Some (inject_Z 153))
                                               (Some (inject_Z (-27))))
                          (grid_points_from_xy (Some (inject_Z (-153)))
                                               (Some (inject_Z (-27)))))
           radius = false /\
  exists a b,
    sample_main far_apart_frames = Ok [a; b] /\
    source_secondary a = Str [] /\ source_secondary b = Str [].
Proof.
  split; [reflexivity|].
  eexists. eexists. split; [vm_compute; reflexivity|]. split; reflexivity.
Qed.

(** Scenario D: the row without latitude is left out, nothing is raised. *)
Example scenario_missing_latitude :
  exists a,
    sample_main partly_located_frames = Ok [a] /\
    name a = Str (lit "Blue Lake Resort").
Proof. eexists. split; [vm_compute; reflexivity|]. reflexivity. Qed.

(** Scenario E: the base has no phone, the merged row takes the member's. *)
Example scenario_phone_backfill :
  exists a,
    sample_main phone_backfill_frames = Ok [a] /\
    source_primary a = Str (lit "brand") /\
    phone_cell a = VStr (lit "0400 111 222") /\
    source_secondary a = Str (lit "osm").
Proof.
  eexists. split; [vm_compute; reflexivity|]. repeat split; reflexivity.
Qed.

(** A row whose latitude is 200 has both coordinates and no finite key:
    line 19 raises. *)
Example scenario_latitude_200 :
  has_coordinates row_with_latitude_200 = true /\
  cluster_of grid_points_from_xy grid_cluster_key row_with_latitude_200
  = None /\
  sample_main [[row_with_latitude_200]] = Err IntCastingNaNError.
Proof. repeat split. Qed.

(** ** The further properties at the sample tables *)

Lemma ucd_lower_fixes_spaces (c : char) :
  ucd_isspace c = true -> ucd_lower c = [c].
Proof.
  unfold ucd_isspace, ucd_lower, between. intros H.
  assert (Hc : (c <= 32)%N).
  { apply orb_true_iff in H as [H|H]; apply andb_true_iff in H as [_ H];
      apply N.leb_le in H; lia. }
  destruct (N.leb_spec 65 c); [lia|]. simpl.
  destruct (N.eqb_spec c 304); [lia|reflexivity].
Qed.

Lemma exact_ratio_sym (a b : str) : exact_ratio a b = exact_ratio b a.
Proof.
  destruct a as [|x a], b as [|y b]; try reflexivity.
  unfold exact_ratio. rewrite (str_eqb_sym (x :: a) (y :: b)). reflexivity.
Qed.

Lemma grid_distance_sym (p q : grid_point) :
  grid_distance p q = grid_distance q p.
Proof.
  destruct p as [p|], q as [q|]; try reflexivity.
  unfold grid_distance. do 2 f_equal. ring.
Qed.

Lemma sunny_labels_distinct : NoDup (map (@label _) (gdf_of sunny_table)).
Proof. simpl. repeat constructor; simpl; intuition discriminate. Qed.

(** A name with an exclamation mark inside. *)
Lemma norm_name_ignores_dropped_characters_witness :
  ucd_isalnum 33%N = false /\ ucd_isspace 33%N = false /\
  norm (Str (lit "Sunny" ++ 33%N :: lit " Park")) =
  norm (Str (lit "Sunny" ++ lit " Park")).
Proof.
  split; [reflexivity|]. split; [reflexivity|].
  apply norm_name_ignores_dropped_characters; reflexivity.
Defined.

(** A name between two spaces and a tab. *)
Lemma norm_name_ignores_outer_whitespace_witness :
  (forall c, ucd_isspace c = true -> ucd_lower c = [c]) /\
  Forall (fun c => ucd_isspace c = true) [32%N; 32%N] /\
  Forall (fun c => ucd_isspace c = true) [9%N] /\
  norm (Str ([32%N; 32%N] ++ lit "Sunny Park" ++ [9%N])) =
  norm (Str (lit "Sunny Park")).
Proof.
  assert (H1 : Forall (fun c => ucd_isspace c = true) [32%N; 32%N])
    by (repeat constructor).
  assert (H2 : Forall (fun c => ucd_isspace c = true) [9%N])
    by (repeat constructor).
  split; [exact ucd_lower_fixes_spaces|]. split; [exact H1|].
  split; [exact H2|].
  exact (norm_name_ignores_outer_whitespace ucd_isalnum ucd_isspace
           ucd_lower [32%N; 32%N] (lit "Sunny Park") [9%N]
           ucd_lower_fixes_spaces H1 H2).
Defined.

(** The first two rows of [sunny_table], either one as the seed. *)
Lemma appended_symmetric_witness :
  let i := mkGRow (sample_row 0 (Str (lit "Sunny Caravan Park")) 153 (-27)
                              (Str (lit "osm")) VNaN)
                  (Some (153, -27)%Z) (lit "150:-30") in
  let j := mkGRow (sample_row 1 (Str (lit "sunny caravan park!")) 153 (-27)
                              (Str (lit "brand"))
                              (VStr (lit "0400 111 222")))
                  (Some (153, -27)%Z) (lit "150:-30") in
  (forall a b, exact_ratio a b = exact_ratio b a) /\
  (forall p q, grid_distance p q = grid_distance q p) /\
  ~ In (label i) [] /\ ~ In (label j) [] /\
  appended ucd_isalnum ucd_isspace ucd_lower exact_ratio grid_distance
           radius [] i j =
  appended ucd_isalnum ucd_isspace ucd_lower exact_ratio grid_distance
           radius [] j i.
Proof.
  intros i j.
  split; [exact exact_ratio_sym|]. split; [exact grid_distance_sym|].
  split; [intros []|]. split; [intros []|].
  apply appended_symmetric;
    [exact exact_ratio_sym | exact grid_distance_sym | intros [] | intros []].
Defined.

(** The block of rows 0 and 1 of [sunny_table]. *)
Lemma blocks_are_stars_witness :
  In [0; 1] (sample_blocks (gdf_of sunny_table)) /\
  exists i rest,
    In i (gdf_of sunny_table) /\ [0; 1] = label i :: rest /\
    forall k, In k rest ->
      exists j, In j (gdf_of sunny_table) /\ label j = k /\
                label j <> label i /\
                Qle_bool (grid_distance (geom i) (geom j)) radius = true /\
                name_match ucd_isalnum ucd_isspace ucd_lower exact_ratio
                           (row i) (row j) = true.
Proof.
  split; [left; reflexivity|].
  apply (blocks_are_stars ucd_isalnum ucd_isspace ucd_lower exact_ratio
           grid_point grid_distance radius (gdf_of sunny_table) [0; 1]).
  left; reflexivity.
Defined.

Lemma blocks_in_frame_order_witness :
  NoDup (map (@label _) (gdf_of sunny_table)) /\
  In [0; 1] (sample_blocks (gdf_of sunny_table)) /\
  exists keep, [0; 1] = map (@label _) (filter keep (gdf_of sunny_table)).
Proof.
  split; [exact sunny_labels_distinct|]. split; [left; reflexivity|].
  apply (blocks_in_frame_order ucd_isalnum ucd_isspace ucd_lower exact_ratio
           grid_point grid_distance radius (gdf_of sunny_table) [0; 1]
           sunny_labels_distinct).
  left; reflexivity.
Defined.

(** The three rows of [sunny_table] give two merged rows. *)
Lemma dedup_group_row_count_witness :
  exists out,
    sample_dedup (gdf_of sunny_table) = Ok out /\
    length out = length (sample_blocks (gdf_of sunny_table)) /\
    length out <= length (gdf_of sunny_table) /\
    (gdf_of sunny_table <> [] -> out <> []).
Proof.
  eexists. split; [vm_compute; reflexivity|].
  apply (dedup_group_row_count ucd_isalnum ucd_isspace ucd_lower exact_ratio
           stable_indexer grid_point grid_distance all_columns
           whole_float_repr radius (gdf_of sunny_table)).
  vm_compute; reflexivity.
Defined.

Local Abbreviation sample_geo_dedup :=
  (_geo_dedup ucd_isalnum ucd_isspace ucd_lower exact_ratio stable_indexer
              grid_points_from_xy grid_distance grid_cluster_key all_columns
              whole_float_repr).
Local Abbreviation sample_cluster_of :=
  (cluster_of grid_points_from_xy grid_cluster_key).

Lemma sunny_rows_have_keys :
  Forall (fun r => sample_cluster_of r <> None) sunny_table.
Proof. repeat constructor; discriminate. Qed.

(** [sunny_table]: three rows at latitude -27, labelled 0, 1, 2. *)
Lemma geo_dedup_outcome_witness :
  indexer_ok stable_indexer /\
  NoDup (map index sunny_table) /\
  sunny_table <> [] /\
  Forall (fun r => sample_cluster_of r <> None) sunny_table /\
  (sunny_table = [] -> sample_geo_dedup radius sunny_table = Err KeyError) /\
  (Exists (fun r => sample_cluster_of r = None) sunny_table ->
   sample_geo_dedup radius sunny_table = Err IntCastingNaNError) /\
  (sunny_table <> [] ->
   Forall (fun r => sample_cluster_of r <> None) sunny_table ->
   exists out,
     sample_geo_dedup radius sunny_table = Ok out /\ out <> [] /\
     length out <= length sunny_table /\
     map index out = seq 0 (length out)).
Proof.
  assert (Hnd : NoDup (map index sunny_table)).
  { simpl. repeat constructor; simpl; intuition discriminate. }
  split; [exact stable_indexer_ok|]. split; [exact Hnd|].
  split; [discriminate|]. split; [exact sunny_rows_have_keys|].
  exact (geo_dedup_outcome ucd_isalnum ucd_isspace ucd_lower exact_ratio
           stable_indexer grid_point grid_points_from_xy grid_distance
           grid_cluster_key all_columns whole_float_repr radius sunny_table
           stable_indexer_ok Hnd).
Defined.

(** The three outcomes on concrete frames: no row, a row at latitude 200,
    and [sunny_table], which comes back as two rows. *)
Example geo_dedup_outcomes :
  sample_geo_dedup radius [] = Err KeyError /\
  sample_geo_dedup radius [row_with_latitude_200]
  = Err IntCastingNaNError /\
  sample_geo_dedup radius [row_without_latitude]
  = Err IntCastingNaNError /\
  exists a b, sample_geo_dedup radius sunny_table = Ok [a; b].
Proof.
  split; [reflexivity|]. split; [reflexivity|]. split; [reflexivity|].
  eexists. eexists. vm_compute. reflexivity.
Qed.

(** [partly_located_frames]: a row without latitude, and a row at
    latitude -27. *)
Lemma main_succeeds_when_a_row_is_located_witness :
  indexer_ok stable_indexer /\
  Exists (fun r => has_coordinates r = true) (concat partly_located_frames) /\
  Forall (fun r => has_coordinates r = true -> sample_cluster_of r <> None)
         (concat partly_located_frames) /\
  exists out,
    sample_main partly_located_frames = Ok out /\ out <> [] /\
    length out <= length (filter has_coordinates
                                 (concat partly_located_frames)).
Proof.
  assert (Hex : Exists (fun r => has_coordinates r = true)
                       (concat partly_located_frames))
    by (apply Exists_cons_tl, Exists_cons_hd; reflexivity).
  assert (Hkeys : Forall (fun r => has_coordinates r = true ->
                                   sample_cluster_of r <> None)
                         (concat partly_located_frames))
    by (repeat constructor; discriminate).
  split; [exact stable_indexer_ok|]. split; [exact Hex|].
  split; [exact Hkeys|].
  exact (main_succeeds_when_a_row_is_located ucd_isalnum ucd_isspace
           ucd_lower exact_ratio stable_indexer grid_point
           grid_points_from_xy grid_distance grid_cluster_key all_columns
           whole_float_repr partly_located_frames stable_indexer_ok Hex
           Hkeys).
Defined.

Lemma merged_row_is_its_base_elsewhere_witness :
  indexer_ok stable_indexer /\
  exists out,
    sample_dedup (gdf_of sunny_table) = Ok out /\
    Forall2
      (fun block merged =>
         exists base,
           select_base stable_indexer (gdf_of sunny_table) block = Ok base /\
           same_identity merged (row base))
      (sample_blocks (gdf_of sunny_table)) out.
Proof.
  split; [exact stable_indexer_ok|].
  exact (merged_row_is_its_base_elsewhere ucd_isalnum ucd_isspace ucd_lower
           exact_ratio stable_indexer grid_point grid_distance all_columns
           whole_float_repr radius (gdf_of sunny_table) stable_indexer_ok).
Defined.

Lemma merged_values_are_backfilled_witness :
  indexer_ok stable_indexer /\
  NoDup (map (@label _) (gdf_of zero_phone_table)) /\
  exists out,
    sample_dedup (gdf_of zero_phone_table) = Ok out /\
    Forall2
      (fun block merged =>
         exists rows base,
           mapM (loc (gdf_of zero_phone_table)) block = Ok rows /\
           select_base stable_indexer (gdf_of zero_phone_table) block
           = Ok base /\
           forall col, get col merged =
                       backfilled ucd_isspace all_columns whole_float_repr
                                  col rows (row base))
      (sample_blocks (gdf_of zero_phone_table)) out.
Proof.
  assert (Hnd : NoDup (map (@label _) (gdf_of zero_phone_table))).
  { simpl. repeat constructor; simpl; intuition discriminate. }
  split; [exact stable_indexer_ok|]. split; [exact Hnd|].
  exact (merged_values_are_backfilled ucd_isalnum ucd_isspace ucd_lower
           exact_ratio stable_indexer grid_point grid_distance all_columns
           whole_float_repr radius (gdf_of zero_phone_table)
           stable_indexer_ok Hnd).
Defined.

(** The expression at the phone column of three bases: a blank text and
    the number 0 are replaced by the first usable phone of the block, a
    phone that holds is kept. *)
Example backfilled_phones :
  (exists rows base,
     mapM (loc (gdf_of blank_phone_table)) [0; 1] = Ok rows /\
     select_base stable_indexer (gdf_of blank_phone_table) [0; 1] = Ok base /\
     get phone (row base) = VStr (lit " ") /\
     backfilled ucd_isspace all_columns whole_float_repr phone rows (row base)
     = VStr (lit "0400 111 222")) /\
  (exists rows base,
     mapM (loc (gdf_of zero_phone_table)) [0; 1] = Ok rows /\
     select_base stable_indexer (gdf_of zero_phone_table) [0; 1] = Ok base /\
     get phone (row base) = VInt 0 /\
     backfilled ucd_isspace all_columns whole_float_repr phone rows (row base)
     = VStr (lit "0400 111 222")) /\
  (exists rows base,
     mapM (loc (gdf_of sunny_table)) [0; 1] = Ok rows /\
     select_base stable_indexer (gdf_of sunny_table) [0; 1] = Ok base /\
     get phone (row base) = VStr (lit "0400 111 222") /\
     backfilled ucd_isspace all_columns whole_float_repr phone rows (row base)
     = VStr (lit "0400 111 222")).
Proof.
  repeat split; eexists; eexists; repeat split; reflexivity.
Qed.

Lemma backfilled_values_come_from_members_witness :
  indexer_ok stable_indexer /\
  exists out,
    sample_dedup (gdf_of blank_phone_table) = Ok out /\
    Forall2
      (fun block merged =>
         exists rows base,
           mapM (loc (gdf_of blank_phone_table)) block = Ok rows /\
           select_base stable_indexer (gdf_of blank_phone_table) block
           = Ok base /\
           forall col, get col merged <> get col (row base) ->
                       all_columns col = true /\
                       usable ucd_isspace whole_float_repr (get col merged)
                       = true /\
                       exists m, In m rows /\
                                 get col merged = get col (row m))
      (sample_blocks (gdf_of blank_phone_table)) out.
Proof.
  split; [exact stable_indexer_ok|].
  exact (backfilled_values_come_from_members ucd_isalnum ucd_isspace
           ucd_lower exact_ratio stable_indexer grid_point grid_distance
           all_columns whole_float_repr radius (gdf_of blank_phone_table)
           stable_indexer_ok).
Defined.

(** A row at latitude -27, labelled 7, with a blank phone. *)
Lemma geo_dedup_of_one_row_witness :
  indexer_ok stable_indexer /\
  sample_cluster_of
    (sample_row 7 (Str (lit "Blue Lake Resort")) 153 (-27)
                (Str (lit "osm")) (VStr (lit " "))) <> None /\
  sample_geo_dedup radius
    [sample_row 7 (Str (lit "Blue Lake Resort")) 153 (-27)
                (Str (lit "osm")) (VStr (lit " "))]
  = Ok [set_index 0
          (set_source_secondary (Str [])
             (sample_row 7 (Str (lit "Blue Lake Resort")) 153 (-27)
                         (Str (lit "osm")) (VStr (lit " "))))].
Proof.
  assert (Hk : sample_cluster_of
                 (sample_row 7 (Str (lit "Blue Lake Resort")) 153 (-27)
                             (Str (lit "osm")) (VStr (lit " "))) <> None)
    by discriminate.
  split; [exact stable_indexer_ok|]. split; [exact Hk|].
  exact (proj1 (geo_dedup_of_one_row ucd_isalnum ucd_isspace ucd_lower
                  exact_ratio stable_indexer grid_point grid_points_from_xy
                  grid_distance grid_cluster_key all_columns whole_float_repr
                  radius _ stable_indexer_ok) Hk).
Defined.

(** A row at latitude 200, which has no finite key. *)
Example geo_dedup_of_one_unprojectable_row :
  sample_cluster_of row_with_latitude_200 = None /\
  sample_geo_dedup radius [row_with_latitude_200] = Err IntCastingNaNError.
Proof.
  split; reflexivity.
Qed.

Lemma unrelated_rows_do_not_match :
  forall i j,
    In i (gdf_of unrelated_table) -> In j (gdf_of unrelated_table) ->
    label j <> label i ->
    Qle_bool (grid_distance (geom i) (geom j)) radius = true ->
    name_match ucd_isalnum ucd_isspace ucd_lower exact_ratio (row i) (row j)
    = false.
Proof.
  intros i j Hi Hj Hne _. simpl in Hi, Hj.
  destruct Hi as [<-|[<-|[]]]; destruct Hj as [<-|[<-|[]]];
    try (exfalso; apply Hne; reflexivity); reflexivity.
Qed.

Lemma unrelated_labels_distinct :
  NoDup (map (@label _) (gdf_of unrelated_table)).
Proof. simpl. repeat constructor; simpl; intuition discriminate. Qed.

Lemma unmatched_rows_stay_apart_witness :
  NoDup (map (@label _) (gdf_of unrelated_table)) /\
  (forall i j,
     In i (gdf_of unrelated_table) -> In j (gdf_of unrelated_table) ->
     label j <> label i ->
     Qle_bool (grid_distance (geom i) (geom j)) radius = true ->
     name_match ucd_isalnum ucd_isspace ucd_lower exact_ratio (row i) (row j)
     = false) /\
  sample_blocks (gdf_of unrelated_table)
  = map (fun g => [label g]) (gdf_of unrelated_table).
Proof.
  split; [exact unrelated_labels_distinct|].
  split; [exact unrelated_rows_do_not_match|].
  exact (unmatched_rows_stay_apart ucd_isalnum ucd_isspace ucd_lower
           exact_ratio grid_point grid_distance radius
           (gdf_of unrelated_table) unrelated_labels_distinct
           unrelated_rows_do_not_match).
Defined.

Lemma main_rows_are_based_on_input_rows_witness :
  exists out,
    sample_main partly_located_frames = Ok out /\
    Forall (fun o => exists r,
                       In r (concat partly_located_frames) /\
                       has_coordinates r = true /\
                       name o = fillna (name r) /\
                       latitude o = latitude r /\
                       longitude o = longitude r /\
                       source_primary o = source_primary r) out.
Proof.
  eexists. split; [vm_compute; reflexivity|].
  apply (main_rows_are_based_on_input_rows ucd_isalnum ucd_isspace
           ucd_lower exact_ratio stable_indexer grid_point
           grid_points_from_xy grid_distance grid_cluster_key all_columns
           whole_float_repr partly_located_frames).
  vm_compute; reflexivity.
Defined.

Lemma main_groups_have_distinct_labels_witness :
  exists gdf grp,
    to_gdf grid_points_from_xy grid_cluster_key
           (filter has_coordinates
                   (map (fun r => set_name (fillna (name r)) r)
                        (reset_index 0 (concat [sunny_table])))) = Ok gdf /\
    In grp (groupby gdf) /\
    NoDup (map (@label _) grp).
Proof.
  eexists. eexists. split; [reflexivity|]. split; [left; reflexivity|].
  apply (main_groups_have_distinct_labels grid_point grid_points_from_xy
           grid_cluster_key [sunny_table] _ _ eq_refl).
  left; reflexivity.
Defined.

Lemma empty_names_are_kept_apart_witness :
  let i := mkGRow (sample_row 0 (Str []) 153 (-27) (Str (lit "osm")) VNaN)
                  (Some (153, -27)%Z) (lit "150:-30") in
  let j := mkGRow (sample_row 1 (Str []) 153 (-27) (Str (lit "brand")) VNaN)
                  (Some (153, -27)%Z) (lit "150:-30") in
  name (row i) = Str [] /\ name (row j) = Str [] /\
  Qle_bool 80 (exact_ratio [] []) = false /\
  appended ucd_isalnum ucd_isspace ucd_lower exact_ratio grid_distance
           radius [] i j = false.
Proof.
  intros i j. split; [reflexivity|]. split; [reflexivity|].
  split; [reflexivity|].
  apply empty_names_are_kept_apart; reflexivity.
Defined.
